(** * Function-wrapping combinators of [deco.py]

    A shallow embedding of the decorators [disable], [decorator],
    [countcalls], [memo], [n_ary] and [trace] together with the three
    decorated module functions [foo], [bar] and [fib].

    Python function objects are records carrying their [__name__], their
    [__doc__], a pointer to their attribute dictionary ([__dict__]) and
    their behaviour.  Attribute dictionaries live in a store, so that
    the aliasing introduced by [wrap.__dict__ = f.__dict__] is visible. *)

From Stdlib Require Import ZArith String List DecimalString.
From stdpp Require Import base gmap strings list.

Local Open Scope Z_scope.

(** ** Values, exceptions, the store *)

Module Deco.

Inductive val :=
  | VNone
  | VBool (b : bool)
  | VInt (z : Z)
  | VStr (s : string).

Inductive exn :=
  | AttributeError (name : string)
  | TypeError
  | IndexError
  | UserError (tag : string).

#[global] Instance val_eq_dec : EqDecision val.
Proof. solve_decision. Defined.

#[global] Instance exn_eq_dec : EqDecision exn.
Proof. solve_decision. Defined.

Definition val_to_sum (v : val) : unit + bool + Z + string :=
  match v with
  | VNone => inl (inl (inl tt))
  | VBool b => inl (inl (inr b))
  | VInt z => inl (inr z)
  | VStr s => inr s
  end.

Definition val_of_sum (x : unit + bool + Z + string) : val :=
  match x with
  | inl (inl (inl _)) => VNone
  | inl (inl (inr b)) => VBool b
  | inl (inr z) => VInt z
  | inr s => VStr s
  end.

#[global] Instance val_countable : Countable val.
Proof.
  apply (inj_countable' val_to_sum val_of_sum).
  by intros [].
Defined.

(** [bool] is a subclass of [int]: [True == 1] and [hash(True) == hash(1)]. *)
Definition as_num (v : val) : option Z :=
  match v with
  | VInt z => Some z
  | VBool b => Some (Z.b2z b)
  | _ => None
  end.

(** Truth value testing, as done by [not val]. *)
Definition truthy (v : val) : bool :=
  match v with
  | VNone => false
  | VBool b => b
  | VInt z => negb (z =? 0)
  | VStr s => negb (String.eqb s "")
  end.

(** [str(x)]. *)
Definition str (v : val) : string :=
  match v with
  | VNone => "None"
  | VBool true => "True"
  | VBool false => "False"
  | VInt z => NilZero.string_of_int (Z.to_int z)
  | VStr s => s
  end.

(** A tuple used as dictionary key.  Keys that compare equal with [==]
    address the same entry, so a key is stored with its booleans turned
    into the integers they equal. *)
Definition norm_val (v : val) : val :=
  match v with
  | VBool b => VInt (Z.b2z b)
  | _ => v
  end.

Definition norm_key (k : list val) : list val := norm_val <$> k.

(** What an attribute can hold: a plain value or a dictionary from
    tuples to values (the memo cache).  The cache dictionary is only ever
    reached through the attribute that holds it, so it is kept by value. *)
Inductive attr :=
  | AVal (v : val)
  | ADict (d : gmap (list val) val).

Abbreviation loc := nat.

(** The store: attribute dictionaries by address, the next free address,
    and the lines written to standard output (oldest first). *)
Record state := mkState {
  heap : gmap loc (gmap string attr);
  next : loc;
  out : list string
}.

Definition empty_state : state := mkState ∅ 0%nat [].

(** A function's [__dict__] is created on first use: an address with no
    entry in the store is an empty dictionary. *)
Definition bag_at (l : loc) (s : state) : gmap string attr :=
  default ∅ (heap s !! l).

Definition set_attr (l : loc) (name : string) (a : attr) (s : state) : state :=
  mkState (<[l := <[name := a]> (bag_at l s)]> (heap s)) (next s) (out s).

Definition put_line (line : string) (s : state) : state :=
  mkState (heap s) (next s) (out s ++ [line]).

(** ** Computations: state, exceptions, and the recursion budget *)

Inductive res (A : Type) :=
  | Ok (a : A) (s : state)
  | Exc (e : exn) (s : state)
  | OutOfFuel.
Arguments Ok {A} a s.
Arguments Exc {A} e s.
Arguments OutOfFuel {A}.

Definition M (A : Type) : Type := state → res A.

#[global] Instance M_ret : MRet M := λ A a s, Ok a s.
#[global] Instance M_bind : MBind M := λ A B k m s,
  match m s with
  | Ok a s' => k a s'
  | Exc e s' => Exc e s'
  | OutOfFuel => OutOfFuel
  end.

Definition raise {A} (e : exn) : M A := λ s, Exc e s.
Definition diverge {A} : M A := λ _, OutOfFuel.

Definition of_option {A} (e : exn) (o : option A) : M A :=
  match o with Some a => mret a | None => raise e end.

Definition alloc : M loc :=
  λ s, Ok (next s) (mkState (heap s) (S (next s)) (out s)).

(** [getattr(obj, name)], [getattr(obj, name, dflt)] and [obj.name = a]
    for a function object whose [__dict__] is at [l]. *)
Definition getattr (l : loc) (name : string) : M attr :=
  λ s, match bag_at l s !! name with
       | Some a => Ok a s
       | None => Exc (AttributeError name) s
       end.

Definition getattr_default (l : loc) (name : string) (dflt : attr) : M attr :=
  λ s, Ok (default dflt (bag_at l s !! name)) s.

Definition setattr (l : loc) (name : string) (a : attr) : M unit :=
  λ s, Ok tt (set_attr l name a s).

Definition print (line : string) : M unit :=
  λ s, Ok tt (put_line line s).

(** ** Operators on values *)

Definition str_repeat (s : string) (n : Z) : string :=
  String.concat "" (replicate (Z.to_nat n) s).

Definition py_add (a b : val) : option val :=
  match a, b with
  | VStr x, VStr y => Some (VStr (x +:+ y))
  | _, _ => x ← as_num a; y ← as_num b; Some (VInt (x + y))
  end.

Definition py_sub (a b : val) : option val :=
  x ← as_num a; y ← as_num b; Some (VInt (x - y)).

Definition py_mul (a b : val) : option val :=
  match a, b with
  | VStr x, _ => n ← as_num b; Some (VStr (str_repeat x n))
  | _, VStr y => n ← as_num a; Some (VStr (str_repeat y n))
  | _, _ => x ← as_num a; y ← as_num b; Some (VInt (x * y))
  end.

Definition py_le (a b : val) : option bool :=
  match a, b with
  | VStr x, VStr y => Some (String.leb x y)
  | _, _ => x ← as_num a; y ← as_num b; Some (x <=? y)
  end.

Definition attr_val (a : attr) : option val :=
  match a with AVal v => Some v | ADict _ => None end.

(** ** Function objects *)

Record fn := mkFn {
  fname : string;
  fdoc : option string;
  fdict : loc;
  fcall : list val → list (string * val) → M val
}.

(** The call [f(args, kwargs)] with unpacked positional and keyword arguments. *)
Definition call (f : fn) (args : list val) (kwargs : list (string * val)) : M val :=
  fcall f args kwargs.

(** ** The decorators *)

Definition disable_wrap (f : fn) (args : list val) (kwargs : list (string * val)) : M val :=
  _ ← call f args kwargs;
  mret VNone.

Definition disable (f : fn) : M fn :=
  l ← alloc;
  mret (mkFn "disable_wrap" None l (disable_wrap f)).

Definition decorator_wrap (f : fn) (args : list val) (kwargs : list (string * val)) : M val :=
  _ ← call f args kwargs;
  mret VNone.

Definition decorator (f : fn) : M fn :=
  l ← alloc;
  mret (mkFn "decorator_wrap" (fdoc f) l (decorator_wrap f)).

(** [self] is the address of the wrapper's own [__dict__]. *)
Definition countcalls_wrap (self : loc) (f : fn)
    (args : list val) (kwargs : list (string * val)) : M val :=
  c ← getattr_default self "calls" (AVal (VInt 0));
  c' ← of_option TypeError (v ← attr_val c; py_add v (VInt 1));
  _ ← setattr self "calls" (AVal c');
  call f args kwargs.

Definition countcalls_fn (f : fn) : fn :=
  mkFn "countcalls_wrap" None (fdict f) (countcalls_wrap (fdict f) f).

Definition countcalls (f : fn) : M fn :=
  mret (countcalls_fn f).

(** The cache lives in the wrapper's [cache] attribute and is looked up
    afresh at each use ([memo_wrap.cache.get], [memo_wrap.cache[key] = _]). *)
Definition cache_get (self : loc) (key : list val) : M val :=
  c ← getattr self "cache";
  match c with
  | ADict d => mret (default VNone (d !! norm_key key))
  | AVal _ => raise (AttributeError "get")
  end.

Definition cache_set (self : loc) (key : list val) (result : val) : M unit :=
  c ← getattr self "cache";
  match c with
  | ADict d => setattr self "cache" (ADict (<[norm_key key := result]> d))
  | AVal _ => raise TypeError
  end.

Definition memo_key (args : list val) (kwargs : list (string * val)) : list val :=
  args ++ (snd <$> kwargs).

Definition memo_wrap (self : loc) (f : fn)
    (args : list val) (kwargs : list (string * val)) : M val :=
  let key := memo_key args kwargs in
  val ← cache_get self key;
  if negb (truthy val) then
    result ← call f args kwargs;
    _ ← cache_set self key result;
    mret result
  else mret val.

Definition memo_fn (f : fn) : fn :=
  mkFn "memo_wrap" None (fdict f) (memo_wrap (fdict f) f).

Definition memo (f : fn) : M fn :=
  _ ← setattr (fdict f) "cache" (ADict ∅);
  mret (memo_fn f).

(** [n_ary_wrap] calls itself through its own closure variable, on the
    tail of its arguments; with no argument [args[0]] fails. *)
Fixpoint n_ary_wrap (f : fn) (args : list val) : M val :=
  match args with
  | [] => raise IndexError
  | [x] => mret x
  | [x; y] => call f [x; y] []
  | x :: rest =>
      r ← n_ary_wrap f rest;
      call f [x; r] []
  end.

(** The wrapper is declared with positional parameters only. *)
Definition n_ary_call (f : fn) (args : list val) (kwargs : list (string * val)) : M val :=
  match kwargs with
  | [] => n_ary_wrap f args
  | _ :: _ => raise TypeError
  end.

Definition n_ary_fn (f : fn) : fn :=
  mkFn "n_ary_wrap" None (fdict f) (n_ary_call f).

Definition n_ary (f : fn) : M fn :=
  mret (n_ary_fn f).

Definition args_str (args : list val) : string :=
  "(" +:+ String.concat ", " (str <$> args) +:+ ")".

(** [str(indent) * trace_wrap2.depth] *)
Definition indentation (indent : val) (self : loc) : M string :=
  d ← getattr self "depth";
  n ← of_option TypeError (v ← attr_val d; as_num v);
  mret (str_repeat (str indent) n).

(** [trace_wrap2.depth += 1] and [trace_wrap2.depth -= 1] *)
Definition depth_incr (self : loc) : M unit :=
  d ← getattr self "depth";
  d' ← of_option TypeError (v ← attr_val d; py_add v (VInt 1));
  setattr self "depth" (AVal d').

Definition depth_decr (self : loc) : M unit :=
  d ← getattr self "depth";
  d' ← of_option TypeError (v ← attr_val d; py_sub v (VInt 1));
  setattr self "depth" (AVal d').

Definition trace_wrap2 (indent : val) (self : loc) (f : fn)
    (args : list val) (kwargs : list (string * val)) : M val :=
  let a := args_str args in
  pre ← indentation indent self;
  _ ← print (pre +:+ " --> " +:+ fname f +:+ a);
  _ ← depth_incr self;
  result ← call f args kwargs;
  _ ← depth_decr self;
  post ← indentation indent self;
  _ ← print (post +:+ " <-- " +:+ fname f +:+ a +:+ " == " +:+ str result);
  mret result.

Definition trace_fn (indent : val) (f : fn) : fn :=
  mkFn "trace_wrap2" None (fdict f) (trace_wrap2 indent (fdict f) f).

(** [trace(indent)] is [trace_wrap]. *)
Definition trace (indent : val) (f : fn) : M fn :=
  _ ← setattr (fdict f) "depth" (AVal (VInt 0));
  mret (trace_fn indent f).

(** ** Stacks of decorators *)

Inductive comb :=
  | Countcalls
  | Memo
  | NAry
  | Trace (indent : val).

Definition apply_comb (c : comb) (f : fn) : M fn :=
  match c with
  | Countcalls => countcalls f
  | Memo => memo f
  | NAry => n_ary f
  | Trace indent => trace indent f
  end.

(** The name of the closure each decorator returns. *)
Definition comb_name (c : comb) : string :=
  match c with
  | Countcalls => "countcalls_wrap"
  | Memo => "memo_wrap"
  | NAry => "n_ary_wrap"
  | Trace _ => "trace_wrap2"
  end.

(** Decorators are applied innermost first: [[c1; c2]] builds [c2(c1(f))].
    [build_stack] returns every layer, [f] first and the outermost last. *)
Fixpoint apply_chain (cs : list comb) (f : fn) : M fn :=
  match cs with
  | [] => mret f
  | c :: cs' => g ← apply_comb c f; apply_chain cs' g
  end.

Fixpoint build_stack (cs : list comb) (f : fn) : M (list fn) :=
  match cs with
  | [] => mret [f]
  | c :: cs' => g ← apply_comb c f; rest ← build_stack cs' g; mret (f :: rest)
  end.

(** ** The decorated functions of the module *)

(** A [def] statement creates a function object with a dictionary of its own. *)
Definition def_fn (name : string) (doc : option string)
    (body : list val → list (string * val) → M val) : M fn :=
  l ← alloc;
  mret (mkFn name doc l body).

Fixpoint lookup_kw (name : string) (kwargs : list (string * val)) : option val :=
  match kwargs with
  | [] => None
  | (k, v) :: rest => if String.eqb k name then Some v else lookup_kw name rest
  end.

(** Binding of the arguments of a call to the parameters of a plain
    [def f(p1, ..., pn)]: positional arguments first, the remaining
    parameters by keyword; anything else is a [TypeError]. *)
Definition bind_params (params : list string)
    (args : list val) (kwargs : list (string * val)) : option (list val) :=
  if decide (length params < length args)%nat then None
  else
    let rest := drop (length args) params in
    if forallb (λ kv, bool_decide (kv.1 ∈ rest)) kwargs
    then vs ← mapM (λ p, lookup_kw p kwargs) rest; Some (args ++ vs)
    else None.

Definition foo_body (args : list val) (kwargs : list (string * val)) : M val :=
  ps ← of_option TypeError (bind_params ["a"; "b"] args kwargs);
  match ps with
  | [a; b] => of_option TypeError (py_add a b)
  | _ => raise TypeError
  end.

Definition bar_body (args : list val) (kwargs : list (string * val)) : M val :=
  ps ← of_option TypeError (bind_params ["a"; "b"] args kwargs);
  match ps with
  | [a; b] => of_option TypeError (py_mul a b)
  | _ => raise TypeError
  end.

(** The body of [fib] calls the module's global [fib], which is the
    decorated function, not the body's own function object. *)
Definition fib_body (fib : fn) (args : list val) (kwargs : list (string * val)) : M val :=
  ps ← of_option TypeError (bind_params ["n"] args kwargs);
  match ps with
  | [n] =>
      c ← of_option TypeError (py_le n (VInt 1));
      if c : bool then mret (VInt 1)
      else
        n1 ← of_option TypeError (py_sub n (VInt 1));
        x ← call fib [n1] [];
        n2 ← of_option TypeError (py_sub n (VInt 2));
        y ← call fib [n2] [];
        of_option TypeError (py_add x y)
  | _ => raise TypeError
  end.

(** The decorators stacked on [fib]; [traced] tells whether the
    [trace("####")] layer is there. *)
Definition fib_decorate (traced : bool) (f : fn) : fn :=
  let g := memo_fn (countcalls_fn f) in
  if traced then trace_fn (VStr "####") g else g.

(** The code of [fib], with its dictionary at [l].  The recursion goes
    through the global binding, that is through the decorated function;
    it is unfolded at most [fuel] times. *)
Fixpoint fib_code (traced : bool) (fuel : nat) (l : loc)
    (args : list val) (kwargs : list (string * val)) : M val :=
  match fuel with
  | O => diverge
  | S k =>
      fib_body
        (fib_decorate traced (mkFn "fib" (Some "Some doc") l (fib_code traced k l)))
        args kwargs
  end.

Definition fib_def (traced : bool) (fuel : nat) (l : loc) : fn :=
  mkFn "fib" (Some "Some doc") l (fib_code traced fuel l).

Definition fib_global (traced : bool) (fuel : nat) (l : loc) : fn :=
  fib_decorate traced (fib_def traced fuel l).

Record module := mkModule { foo : fn; bar : fn; fib : fn }.

(** Execution of the module's top-level statements.  [traced = true] is
    the module as written. *)
Definition load (traced : bool) (fuel : nat) : M module :=
  foo0 ← def_fn "foo" None foo_body;
  foo1 ← countcalls foo0;
  foo2 ← memo foo1;
  foo3 ← n_ary foo2;
  bar0 ← def_fn "bar" None bar_body;
  bar1 ← countcalls bar0;
  bar2 ← n_ary bar1;
  bar3 ← memo bar2;
  l ← alloc;
  fib1 ← countcalls (fib_def traced fuel l);
  fib2 ← memo fib1;
  fib3 ← (if traced then trace (VStr "####") fib2 else mret fib2);
  mret (mkModule foo3 bar3 fib3).

(** Reading [g.name] from outside, and the value a finished call left. *)
Definition read_attr (g : fn) (name : string) (s : state) : option attr :=
  bag_at (fdict g) s !! name.

Definition final_state {A} (r : res A) : option state :=
  match r with
  | Ok _ s | Exc _ s => Some s
  | OutOfFuel => None
  end.

Definition result_val {A} (r : res A) : option A :=
  match r with
  | Ok a _ => Some a
  | _ => None
  end.

End Deco.

Import Deco.

(** * Vocabulary of the properties *)

(** A binary function computing [op] on its two positional arguments,
    without touching the store. *)
Definition binary_op (name : string) (l : loc) (op : val → val → val) : fn :=
  mkFn name None l
    (λ args kwargs,
       match args, kwargs with
       | [a; b], [] => mret (op a b)
       | _, _ => raise TypeError
       end).

(** The outcome of a call with its return value thrown away. *)
Definition discard_value (r : res val) : res val :=
  match r with
  | Ok _ s => Ok VNone s
  | Exc e s => Exc e s
  | OutOfFuel => OutOfFuel
  end.

(** A function that accepts any positional and keyword arguments,
    ignores them and returns [v]; its dictionary is at [l]. *)
Definition const_fn (name : string) (doc : option string) (l : loc) (v : val) : fn :=
  mkFn name doc l (λ _ _, mret v).

Definition documented_fn : fn := const_fn "fib" (Some "Some doc") 0%nat (VInt 1).

Definition plain_fn : fn := const_fn "f" None 0%nat VNone.

(** The counter as the wrapper itself reads it: absent counts as [0]. *)
Definition counter_is (l : loc) (c : Z) (s : state) : Prop :=
  bag_at l s !! "calls" = Some (AVal (VInt c)) ∨
  (c = 0 ∧ bag_at l s !! "calls" = None).

(** A caller making one call after the other, going on after a call
    that raised. *)
Inductive outcome :=
  | Returned (v : val)
  | Raised (e : exn).

Fixpoint call_seq (g : fn) (calls : list (list val * list (string * val)))
    (s : state) : option (list outcome * state) :=
  match calls with
  | [] => Some ([], s)
  | (args, kwargs) :: rest =>
      match call g args kwargs s with
      | Ok v s1 => '(os, s2) ← call_seq g rest s1; Some (Returned v :: os, s2)
      | Exc e s1 => '(os, s2) ← call_seq g rest s1; Some (Raised e :: os, s2)
      | OutOfFuel => None
      end
  end.

(** [f] leaves the attribute [name] of its own dictionary as it found it,
    whether it returns or raises. *)
Definition keeps_attr (f : fn) (name : string) : Prop :=
  ∀ args kwargs s,
    match call f args kwargs s with
    | Ok _ s' | Exc _ s' => read_attr f name s' = read_attr f name s
    | OutOfFuel => True
    end.

(** A counted function wrapped once more. *)
Definition counted_twice : fn := countcalls_fn (countcalls_fn plain_fn).

(** A binary function that raises [TypeError] unless it gets exactly two
    positional arguments, called with two, one and two arguments. *)
Definition adder : fn :=
  binary_op "add" 0%nat (λ a b, default VNone (py_add a b)).

Definition three_calls : list (list val * list (string * val)) :=
  [([VInt 1; VInt 2], []); ([VInt 1], []); ([VInt 3; VInt 4], [])].

(** What the cache of [g] holds for the arguments of a call. *)
Definition cached (g : fn) (key : list val) (s : state) : option val :=
  match read_attr g "cache" s with
  | Some (ADict d) => d !! norm_key key
  | _ => None
  end.

Definition zero_fn : fn := const_fn "zero" None 0%nat (VInt 0).
Definition counted_zero : fn := countcalls_fn zero_fn.

Definition one_fn : fn := const_fn "one" None 0%nat (VInt 1).
Definition counted_one : fn := countcalls_fn one_fn.

Definition raising_fn : fn :=
  mkFn "boom" None 0%nat (λ _ _, raise (UserError "boom")).

(** The store in which the wrapped function runs: the entry line is
    printed and the depth is one more than the depth [d] before the call. *)
Definition entered (indent : val) (f : fn) (args : list val) (d : Z)
    (s : state) : state :=
  set_attr (fdict f) "depth" (AVal (VInt (d + 1)))
    (put_line (str_repeat (str indent) d +:+ " --> " +:+ fname f +:+ args_str args) s).

(** The store right after [trace("--")(raising_fn)]. *)
Definition traced_state : state :=
  set_attr 0%nat "depth" (AVal (VInt 0)) empty_state.

(** Loading the module in a fresh interpreter and calling [fib(n)]. *)
Definition run_fib (traced : bool) (fuel : nat) (n : Z) : res val :=
  (m ← load traced fuel; call (fib m) [VInt n] []) empty_state.


(** ** Vocabulary of the further properties *)

(** The cache of the function whose dictionary is at [l] holds, under
    every key, the value [spec] gives for that key. *)
Definition cache_agrees (spec : list val → option val) (l : loc) (s : state) : Prop :=
  ∃ d, bag_at l s !! "cache" = Some (ADict d) ∧
       ∀ key v, d !! key = Some v → spec key = Some v.

(** Two stores differ at most in the attribute [name] of the dictionary
    at [l]. *)
Definition same_but (l : loc) (name : string) (s s' : state) : Prop :=
  out s' = out s ∧ next s' = next s ∧
  (∀ l', l' ≠ l → heap s' !! l' = heap s !! l') ∧
  (∀ name', name' ≠ name → bag_at l s' !! name' = bag_at l s !! name').

(** [f] computes [op] on two integers and leaves the store alone. *)
Definition computes_on_ints (f : fn) (op : Z → Z → Z) : Prop :=
  ∀ a b s, call f [VInt a; VInt b] [] s = Ok (VInt (op a b)) s.

(** The line the tracer prints when the call returns [r] at depth [d]. *)
Definition exit_line (indent : val) (f : fn) (args : list val) (d : Z) (r : val) : string :=
  str_repeat (str indent) d +:+ " <-- " +:+ fname f +:+ args_str args
    +:+ " == " +:+ str r.

Definition enter_line (indent : val) (f : fn) (args : list val) (d : Z) : string :=
  str_repeat (str indent) d +:+ " --> " +:+ fname f +:+ args_str args.

(** The plain [foo] and [bar] of the module, before decoration, with
    their dictionaries at [l]. *)
Definition foo_def (l : loc) : fn := mkFn "foo" None l foo_body.
Definition bar_def (l : loc) : fn := mkFn "bar" None l bar_body.

Definition is_memo (c : comb) : bool :=
  match c with Memo => true | _ => false end.

Definition is_trace (c : comb) : bool :=
  match c with Trace _ => true | _ => false end.

(** The numbers the module's [fib] computes: [1] up to [n = 1], the sum
    of the two before from there on. *)
Fixpoint fib_nat (n : nat) : Z :=
  match n with
  | O => 1
  | S m =>
      match m with
      | O => 1
      | S k => fib_nat m + fib_nat k
      end
  end.

Definition fib_spec (n : Z) : Z := fib_nat (Z.to_nat n).

Definition int_of (v : val) : option Z :=
  match v with VInt z => Some z | _ => None end.

(** What the caches of the decorated [fib], [foo] and [bar] hold under a
    key, as long as they are called with integers. *)
Definition fib_cache_spec (key : list val) : option val :=
  match key with
  | [VInt m] => Some (VInt (fib_spec m))
  | _ => None
  end.

Definition foo_cache_spec (key : list val) : option val :=
  match key with
  | [VInt a; VInt b] => Some (VInt (a + b))
  | _ => None
  end.

Definition bar_cache_spec (key : list val) : option val :=
  zs ← mapM int_of key;
  match zs with
  | [] => None
  | _ :: _ => Some (VInt (foldr Z.mul 1 zs))
  end.

(** The dictionary of a decorated function is in order: the cache agrees
    with [spec], the counter is absent or an integer, and, under
    [trace], the depth is an integer. *)
Definition stack_inv (spec : list val → option val) (traced : bool)
    (l : loc) (s : state) : Prop :=
  cache_agrees spec l s ∧
  (∃ c, counter_is l c s) ∧
  (traced = true → ∃ d, bag_at l s !! "depth" = Some (AVal (VInt d))).

(** From [s] to [s'] no dictionary was created, only the dictionary at
    [l] was written, and its depth counter is the same. *)
Definition steps (l : loc) (s s' : state) : Prop :=
  next s' = next s ∧
  (∀ l', l' ≠ l → heap s' !! l' = heap s !! l') ∧
  bag_at l s' !! "depth" = bag_at l s !! "depth".

(** The dictionaries of the module's three functions are in order:
    [foo] at address [0], [bar] at [1], [fib] at [2]. *)
Definition module_inv (traced : bool) (s : state) : Prop :=
  stack_inv foo_cache_spec false 0%nat s ∧
  stack_inv bar_cache_spec false 1%nat s ∧
  stack_inv fib_cache_spec traced 2%nat s.

(** The dictionary of the decorated [fib] at [l]: its cache is the
    dictionary [d], its counter stands at [c]. *)
Definition fib_state (traced : bool) (l : loc) (d : gmap (list val) val)
    (c : Z) (s : state) : Prop :=
  bag_at l s !! "cache" = Some (ADict d) ∧
  counter_is l c s ∧
  (traced = true → ∃ dp, bag_at l s !! "depth" = Some (AVal (VInt dp))).

Definition fib_cache_ok (d : gmap (list val) val) : Prop :=
  ∀ key v, d !! key = Some v → fib_cache_spec key = Some v.

(** The counter of [fib] equals the number of entries of its cache. *)
Definition fib_counted (traced : bool) (l : loc) (s : state) : Prop :=
  ∃ d, fib_cache_ok d ∧ fib_state traced l d (Z.of_nat (size d)) s.

(** One call of the decorated [fib]: the value, what becomes of the
    cache and of the counter.  [bound] tells how large the arguments
    newly cached can be. *)
Definition fib_outcome (traced : bool) (l : loc) (n bound : Z)
    (d : gmap (list val) val) (c : Z) (s : state) (r : res val) : Prop :=
  ∃ s' d', r = Ok (VInt (fib_spec n)) s' ∧
    fib_cache_ok d' ∧ d ⊆ d' ∧
    (∀ key, d !! key = None → is_Some (d' !! key) →
       ∃ m, key = [VInt m] ∧ m ≤ bound) ∧
    fib_state traced l d' (c + Z.of_nat (size d') - Z.of_nat (size d)) s' ∧
    steps l s s'.

(** * Properties *)

(** ** Running computations *)

Lemma bind_ok {A B} (m : M A) (k : A → M B) s a s' :
  m s = Ok a s' → (m ≫= k) s = k a s'.
Proof. intros H. unfold mbind, M_bind. by rewrite H. Qed.

Lemma bind_exc {A B} (m : M A) (k : A → M B) s e s' :
  m s = Exc e s' → (m ≫= k) s = Exc e s'.
Proof. intros H. unfold mbind, M_bind. by rewrite H. Qed.

Lemma bind_fuel {A B} (m : M A) (k : A → M B) s :
  m s = OutOfFuel → (m ≫= k) s = OutOfFuel.
Proof. intros H. unfold mbind, M_bind. by rewrite H. Qed.

Lemma read_set_attr_eq l name a s :
  bag_at l (set_attr l name a s) !! name = Some a.
Proof.
  unfold bag_at, set_attr; simpl.
  rewrite lookup_insert_eq; simpl. apply lookup_insert_eq.
Qed.

Lemma read_set_attr_ne l name name' a s :
  name ≠ name' →
  bag_at l (set_attr l name a s) !! name' = bag_at l s !! name'.
Proof.
  intros Hne. unfold bag_at, set_attr; simpl.
  rewrite lookup_insert_eq; simpl. by rewrite lookup_insert_ne.
Qed.

Lemma bag_put_line l line s : bag_at l (put_line line s) = bag_at l s.
Proof. reflexivity. Qed.

(** ** [n_ary] *)

Lemma n_ary_wrap_cons f x y z rest :
  n_ary_wrap f (x :: y :: z :: rest) =
  (r ← n_ary_wrap f (y :: z :: rest); call f [x; r] []).
Proof. reflexivity. Qed.

Lemma n_ary_wrap_fold op name l xs x s :
  n_ary_wrap (binary_op name l op) (xs ++ [x]) s = Ok (foldr op x xs) s.
Proof.
  induction xs as [|a xs IH]; [done|].
  destruct xs as [|b xs]; [done|].
  simpl app in *.
  destruct (xs ++ [x]) as [|c t] eqn:E.
  { by destruct xs. }
  rewrite n_ary_wrap_cons.
  by rewrite (bind_ok _ _ _ _ _ IH).
Qed.

(** C7. With [g = n_ary(f)]: [g(x)] is [x]; [g(x, y)] is [f(x, y)]; with
    three arguments or more [g(x, y, z, ...)] is [f(x, g(y, z, ...))],
    the inner call being made first and its outcome handed to [f].  For a
    binary operation without effects this is the right fold of the
    operation over the arguments. *)
Theorem n_ary_right_fold (f : fn) (s0 : state) :
  ∃ g, n_ary f s0 = Ok g s0 ∧
    (∀ x s, call g [x] [] s = Ok x s) ∧
    (∀ x y s, call g [x; y] [] s = call f [x; y] [] s) ∧
    (∀ x y z rest s,
       call g (x :: y :: z :: rest) [] s =
       (r ← call g (y :: z :: rest) []; call f [x; r] []) s) ∧
    (∀ op name l xs x s,
       call (n_ary_fn (binary_op name l op)) (xs ++ [x]) [] s
       = Ok (foldr op x xs) s).
Proof.
  exists (n_ary_fn f). repeat split; try done.
  intros. apply n_ary_wrap_fold.
Qed.

(** ** [decorator] and [disable] *)

Lemma bind_discard (m : M val) s :
  (_ ← m; mret VNone) s = discard_value (m s).
Proof. unfold mbind, M_bind. by destruct (m s). Qed.

(** C10. The wrapper built by [decorator(f)] calls [f] with the arguments
    it was given and returns [None] whatever [f] returned (an error of
    [f] passes through); it carries the documentation of [f] but keeps
    its own name [decorator_wrap].  The wrapper built by [disable(f)]
    returns [None] in the same way. *)
Theorem decorator_disable_return_none (f : fn) (s : state) :
  ∃ g d s',
    decorator f s = Ok g s' ∧ disable f s = Ok d s' ∧
    fdoc g = fdoc f ∧ fname g = "decorator_wrap" ∧
    (∀ args kwargs s1,
       call g args kwargs s1 = discard_value (call f args kwargs s1)) ∧
    (∀ args kwargs s1,
       call d args kwargs s1 = discard_value (call f args kwargs s1)) ∧
    (∀ args kwargs s1 v s2,
       call g args kwargs s1 = Ok v s2 ∨ call d args kwargs s1 = Ok v s2 →
       v = VNone).
Proof.
  eexists _, _, _. split; [reflexivity|]. split; [reflexivity|].
  simpl. split_and!; try done.
  intros args kwargs s1 v s2 [H|H];
      unfold call in H; simpl in H;
      unfold decorator_wrap, disable_wrap in H;
      rewrite bind_discard in H;
      destruct (call f args kwargs s1); simpl in H; congruence.
Qed.

(** ** One dictionary for the whole stack *)

Lemma apply_comb_ok c f s :
  ∃ g s', apply_comb c f s = Ok g s' ∧
    fdict g = fdict f ∧ fname g = comb_name c ∧ fdoc g = None.
Proof. destruct c; by eexists _, _. Qed.


(** The outermost layer of the stack is what the chain returns. *)
Lemma build_stack_last cs : ∀ f s layers s',
  build_stack cs f s = Ok layers s' →
  ∃ g, apply_chain cs f s = Ok g s' ∧ last layers = Some g.
Proof.
  induction cs as [|c cs IH]; intros f s layers s' H.
  - injection H as <- <-. by exists f.
  - simpl in H. destruct (apply_comb_ok c f s) as (g & s1 & Hg & _).
    rewrite (bind_ok _ _ _ _ _ Hg) in H.
    destruct (build_stack cs g s1) as [rest s2| |] eqn:Hr;
      unfold mbind, M_bind in H; rewrite Hr in H; try discriminate.
    injection H as <- <-.
    destruct (IH _ _ _ _ Hr) as (top & Htop & Hlast).
    exists top. split.
    + simpl. by rewrite (bind_ok _ _ _ _ _ Hg).
    + destruct rest; [discriminate|]. exact Hlast.
Qed.

(** ** Name and documentation of a wrapper *)

(** C3, as stated, fails: [countcalls] applied to a function named [fib]
    with a docstring gives a wrapper named [countcalls_wrap] without
    documentation. *)
Lemma chain_name_doc_counterexample :
  ∃ g s',
    apply_chain [Countcalls] documented_fn empty_state = Ok g s' ∧
    fname g = "countcalls_wrap" ∧ fname documented_fn = "fib" ∧
    fdoc g = None ∧ fdoc documented_fn = Some "Some doc" ∧
    fname g ≠ fname documented_fn ∧ fdoc g ≠ fdoc documented_fn.
Proof. eexists _, _. split; [reflexivity|]. by split_and!. Qed.

(** C3, amended. The empty chain gives back [f] itself.  For every
    non-empty chain of decorators applied to [f] the outermost wrapper
    shares the dictionary of [f], its name is the name of the closure
    returned by the outermost decorator and it has no documentation,
    whatever the name and documentation of [f] are: they equal those of
    [f] exactly when [f] already bears that closure name and has no
    documentation. *)
Theorem chain_name_doc (cs : list comb) (f : fn) (s : state) :
  ∃ g s',
    apply_chain cs f s = Ok g s' ∧
    fdict g = fdict f ∧
    match last cs with
    | None => g = f
    | Some c =>
        fname g = comb_name c ∧ fdoc g = None ∧
        (fname g = fname f ∧ fdoc g = fdoc f ↔
         fname f = comb_name c ∧ fdoc f = None)
    end.
Proof.
  assert (Hiff : ∀ (g : fn) c, fname g = comb_name c → fdoc g = None →
    fname g = comb_name c ∧ fdoc g = None ∧
    (fname g = fname f ∧ fdoc g = fdoc f ↔
     fname f = comb_name c ∧ fdoc f = None)).
  { intros g c Hn Hd. split; [done|]. split; [done|].
    rewrite Hn, Hd. split; intros [H1 H2]; by split. }
  revert f s Hiff. induction cs as [|c cs IH]; intros f s Hiff.
  - by exists f, s.
  - destruct (apply_comb_ok c f s) as (g & s1 & Hg & Hd & Hn & Hdoc).
    destruct cs as [|c' cs].
    + exists g, s1. split; [|split; [done|]].
      * simpl. by rewrite (bind_ok _ _ _ _ _ Hg).
      * by apply Hiff.
    + change (last (c :: c' :: cs)) with (last (c' :: cs)).
      destruct (IH g s1) as (top & s2 & Htop & Hdt & Hlast).
      { intros g' c0 Hn' Hd'. split; [done|]. split; [done|].
        rewrite Hn', Hd'. split; intros [H1 H2]; by split. }
      exists top, s2. split; [|split].
      * change (apply_chain (c :: c' :: cs) f s)
          with ((g0 ← apply_comb c f; apply_chain (c' :: cs) g0) s).
        by rewrite (bind_ok _ _ _ _ _ Hg).
      * by rewrite Hdt.
      * destruct (last (c' :: cs)) as [c0|] eqn:E;
          [|by apply last_None in E].
        destruct Hlast as (Hn0 & Hd0 & _). by apply Hiff.
Qed.

(** ** [countcalls] *)

(** C5, as stated, fails: right after [g = countcalls(f)] for a freshly
    defined [f], reading [g.calls] raises [AttributeError]. *)
Lemma countcalls_initial_counter_counterexample :
  ∃ g s',
    (f ← def_fn "f" None (λ _ _, mret VNone); countcalls f) empty_state = Ok g s' ∧
    getattr (fdict g) "calls" s' = Exc (AttributeError "calls") s' ∧
    getattr (fdict g) "calls" s' ≠ Ok (AVal (VInt 0)) s'.
Proof. eexists _, _. split; [reflexivity|]. split; [reflexivity|]. discriminate. Qed.

Lemma countcalls_wrap_step f c args kwargs s :
  counter_is (fdict f) c s →
  call (countcalls_fn f) args kwargs s
  = call f args kwargs (set_attr (fdict f) "calls" (AVal (VInt (c + 1))) s).
Proof.
  intros Hc. unfold call at 1. simpl. unfold countcalls_wrap.
  unfold mbind, M_bind, getattr_default.
  destruct Hc as [-> | [-> ->]]; reflexivity.
Qed.

(** C5, amended. For a function [f] that carries no [calls] attribute,
    [g = countcalls(f)] changes nothing in the store and [g.calls] is
    absent before any call; the wrapper reads the absent counter as [0],
    so that its first call stores [1] and then delegates to [f]. *)
Theorem countcalls_counter_absent (f : fn) (s : state) :
  read_attr f "calls" s = None →
  ∃ g, countcalls f s = Ok g s ∧
    getattr (fdict g) "calls" s = Exc (AttributeError "calls") s ∧
    getattr_default (fdict g) "calls" (AVal (VInt 0)) s = Ok (AVal (VInt 0)) s ∧
    ∀ args kwargs,
      call g args kwargs s
      = call f args kwargs (set_attr (fdict f) "calls" (AVal (VInt 1)) s).
Proof.
  intros H. exists (countcalls_fn f). unfold read_attr in H.
  split_and!.
  - reflexivity.
  - unfold getattr. simpl. by rewrite H.
  - unfold getattr_default. simpl. by rewrite H.
  - intros. apply (countcalls_wrap_step f 0). by right.
Qed.

Lemma countcalls_counter_absent_witness :
  read_attr plain_fn "calls" empty_state = None ∧
  ∃ g, countcalls plain_fn empty_state = Ok g empty_state ∧
    getattr (fdict g) "calls" empty_state
      = Exc (AttributeError "calls") empty_state ∧
    getattr_default (fdict g) "calls" (AVal (VInt 0)) empty_state
      = Ok (AVal (VInt 0)) empty_state ∧
    ∀ args kwargs,
      call g args kwargs empty_state
      = call plain_fn args kwargs
          (set_attr (fdict plain_fn) "calls" (AVal (VInt 1)) empty_state).
Proof.
  split; [reflexivity|].
  apply (countcalls_counter_absent plain_fn empty_state). reflexivity.
Defined.

(** C6, as stated, fails: when [f] is itself a [countcalls] wrapper the
    two wrappers share one counter, and a single call to [g] leaves
    [g.calls == 2].  And after a sequence of no calls at all [g.calls]
    is absent, not [0]. *)
Lemma countcalls_shared_counter_counterexample :
  read_attr (countcalls_fn plain_fn) "calls" empty_state = None ∧
  (∃ v s',
    call_seq counted_twice [([], [])] empty_state = Some ([Returned v], s') ∧
    read_attr counted_twice "calls" s' = Some (AVal (VInt 2)) ∧
    read_attr counted_twice "calls" s' ≠ Some (AVal (VInt 1))) ∧
  call_seq (countcalls_fn plain_fn) [] empty_state = Some ([], empty_state) ∧
  getattr (fdict (countcalls_fn plain_fn)) "calls" empty_state
  = Exc (AttributeError "calls") empty_state.
Proof.
  split; [reflexivity|]. split; [|by split]. eexists _, _.
  split; [reflexivity|]. split; [reflexivity|]. discriminate.
Qed.

Lemma call_seq_counter f :
  keeps_attr f "calls" →
  ∀ calls c s os s',
    counter_is (fdict f) c s →
    call_seq (countcalls_fn f) calls s = Some (os, s') →
    length os = length calls ∧
    counter_is (fdict f) (c + Z.of_nat (length calls)) s' ∧
    (calls ≠ [] →
     bag_at (fdict f) s' !! "calls"
     = Some (AVal (VInt (c + Z.of_nat (length calls))))).
Proof.
  intros Hkeep. induction calls as [|[args kwargs] rest IH]; intros c s os s' Hc H.
  - injection H as <- <-. split; [done|]. split; [|done].
    by rewrite Z.add_0_r.
  - cbn [call_seq] in H.
    rewrite (countcalls_wrap_step f c args kwargs s Hc) in H.
    pose proof (Hkeep args kwargs
      (set_attr (fdict f) "calls" (AVal (VInt (c + 1))) s)) as Hk.
    unfold read_attr in Hk. rewrite read_set_attr_eq in Hk.
    assert (Hstep : ∀ s1 os1,
      bag_at (fdict f) s1 !! "calls" = Some (AVal (VInt (c + 1))) →
      call_seq (countcalls_fn f) rest s1 = Some (os1, s') →
      length os1 = length rest ∧
      counter_is (fdict f) (c + Z.of_nat (length ((args, kwargs) :: rest))) s' ∧
      bag_at (fdict f) s' !! "calls"
      = Some (AVal (VInt (c + Z.of_nat (length ((args, kwargs) :: rest)))))).
    { intros s1 os1 H1 Hr.
      destruct (IH (c + 1) s1 os1 s' (or_introl H1) Hr) as (Hl & Hci & Hne).
      replace (c + Z.of_nat (length ((args, kwargs) :: rest)))
        with (c + 1 + Z.of_nat (length rest)) by (simpl length; lia).
      split; [done|]. split; [done|].
      destruct rest as [|x rest']; [|by apply Hne].
      injection Hr as <- <-. simpl. by rewrite Z.add_0_r. }
    destruct (call f args kwargs _) as [v s1|e s1|]; [| |discriminate].
    + destruct (call_seq (countcalls_fn f) rest s1) as [[os1 s2]|] eqn:Hr;
        simpl in H; [|discriminate].
      injection H as <- <-.
      destruct (Hstep s1 os1 Hk Hr) as (Hl & Hci & Hv).
      split; [simpl; by rewrite Hl|]. by split.
    + destruct (call_seq (countcalls_fn f) rest s1) as [[os1 s2]|] eqn:Hr;
        simpl in H; [|discriminate].
      injection H as <- <-.
      destruct (Hstep s1 os1 Hk Hr) as (Hl & Hci & Hv).
      split; [simpl; by rewrite Hl|]. by split.
Qed.

(** C6, amended. Let [f] carry no [calls] attribute and never write that
    attribute itself, and let [g = countcalls(f)].  After any sequence of
    [N >= 1] calls to [g], with any arguments and whether the calls
    return or raise, [g.calls == N].  In each call the counter is
    incremented first and the call is then exactly the call of [f]: same
    result or same error, with the increment left in place. *)
Theorem countcalls_counts_attempts (f : fn)
    (calls : list (list val * list (string * val)))
    (s s' : state) (os : list outcome) :
  keeps_attr f "calls" →
  read_attr f "calls" s = None →
  call_seq (countcalls_fn f) calls s = Some (os, s') →
  countcalls f s = Ok (countcalls_fn f) s ∧
  length os = length calls ∧
  (calls ≠ [] →
   read_attr (countcalls_fn f) "calls" s'
   = Some (AVal (VInt (Z.of_nat (length calls))))) ∧
  (∀ c args kwargs s1,
     counter_is (fdict f) c s1 →
     call (countcalls_fn f) args kwargs s1
     = call f args kwargs (set_attr (fdict f) "calls" (AVal (VInt (c + 1))) s1)).
Proof.
  intros Hkeep H0 Hseq.
  destruct (call_seq_counter f Hkeep calls 0 s os s') as (Hl & _ & Hv);
    [by right|done|].
  split_and!; try done.
  intros. by apply countcalls_wrap_step.
Qed.

Lemma binary_op_keeps_attr name l op attr_name :
  keeps_attr (binary_op name l op) attr_name.
Proof.
  intros args kwargs s. unfold call; simpl.
  destruct args as [|a [|b [|c args]]], kwargs as [|kv kwargs]; reflexivity.
Qed.

Lemma countcalls_counts_attempts_witness :
  ∃ s',
    call_seq (countcalls_fn adder) three_calls empty_state
    = Some ([Returned (VInt 3); Raised TypeError; Returned (VInt 7)], s') ∧
    read_attr (countcalls_fn adder) "calls" s' = Some (AVal (VInt 3)).
Proof.
  eexists. split; [reflexivity|].
  refine (proj1 (proj2 (proj2
    (countcalls_counts_attempts adder three_calls empty_state _ _
       (binary_op_keeps_attr _ _ _ _) eq_refl eq_refl))) _).
  discriminate.
Defined.

(** ** [memo] *)

(** A cached value that is falsy is looked up, found, and thrown away:
    the wrapped function is called again. *)
Lemma memo_wrap_falsy_hit f args kwargs s d v :
  bag_at (fdict f) s !! "cache" = Some (ADict d) →
  d !! norm_key (memo_key args kwargs) = Some v →
  truthy v = false →
  call (memo_fn f) args kwargs s
  = (result ← call f args kwargs;
     _ ← cache_set (fdict f) (memo_key args kwargs) result;
     mret result) s.
Proof.
  intros Hc Hd Hv. unfold call at 1; simpl. unfold memo_wrap.
  assert (Hget : cache_get (fdict f) (memo_key args kwargs) s = Ok v s).
  { unfold cache_get, mbind, M_bind, getattr. rewrite Hc. simpl.
    by rewrite Hd. }
  rewrite (bind_ok _ _ _ _ _ Hget). by rewrite Hv.
Qed.

(** C1 fails on the code. [f] always returns [0] and counts its calls;
    [g = memo(f)]. The first [g(5)] calls [f] and stores [0] under the
    key [(5,)]; the second [g(5)] finds the entry and calls [f] again. *)
Theorem memo_falsy_result_recomputed :
  ∃ g s0 s1 s2,
    memo counted_zero empty_state = Ok g s0 ∧
    call g [VInt 5] [] s0 = Ok (VInt 0) s1 ∧
    cached g [VInt 5] s1 = Some (VInt 0) ∧
    read_attr counted_zero "calls" s1 = Some (AVal (VInt 1)) ∧
    call g [VInt 5] [] s1 = Ok (VInt 0) s2 ∧
    read_attr counted_zero "calls" s2 = Some (AVal (VInt 2)).
Proof.
  eexists _, _, _, _. split; [reflexivity|].
  split; [vm_compute; reflexivity|].
  split; [vm_compute; reflexivity|].
  split; [vm_compute; reflexivity|].
  split; [vm_compute; reflexivity|].
  vm_compute; reflexivity.
Qed.

Lemma cache_get_run l key s d :
  bag_at l s !! "cache" = Some (ADict d) →
  cache_get l key s = Ok (default VNone (d !! norm_key key)) s.
Proof.
  intros H. unfold cache_get, mbind, M_bind, getattr. by rewrite H.
Qed.

Lemma cache_set_inv l key r s u s' :
  cache_set l key r s = Ok u s' →
  ∃ d, bag_at l s !! "cache" = Some (ADict d) ∧
       s' = set_attr l "cache" (ADict (<[norm_key key := r]> d)) s.
Proof.
  unfold cache_set, mbind, M_bind, getattr, setattr. intros H.
  destruct (bag_at l s !! "cache") as [[a|d]|]; try discriminate.
  injection H as _ <-. by exists d.
Qed.

Lemma memo_wrap_hit f args kwargs s d v :
  bag_at (fdict f) s !! "cache" = Some (ADict d) →
  d !! norm_key (memo_key args kwargs) = Some v →
  truthy v = true →
  call (memo_fn f) args kwargs s = Ok v s.
Proof.
  intros Hc Hd Hv. unfold call; simpl. unfold memo_wrap.
  rewrite (bind_ok _ _ _ _ _ (cache_get_run _ _ _ _ Hc)).
  rewrite Hd. simpl. by rewrite Hv.
Qed.

Lemma cache_set_run l key r s d :
  bag_at l s !! "cache" = Some (ADict d) →
  cache_set l key r s
  = Ok tt (set_attr l "cache" (ADict (<[norm_key key := r]> d)) s).
Proof.
  intros H. unfold cache_set, mbind, M_bind, getattr. by rewrite H.
Qed.

Lemma memo_wrap_miss f args kwargs s d r s2 d2 :
  bag_at (fdict f) s !! "cache" = Some (ADict d) →
  truthy (default VNone (d !! norm_key (memo_key args kwargs))) = false →
  call f args kwargs s = Ok r s2 →
  bag_at (fdict f) s2 !! "cache" = Some (ADict d2) →
  call (memo_fn f) args kwargs s
  = Ok r (set_attr (fdict f) "cache"
            (ADict (<[norm_key (memo_key args kwargs) := r]> d2)) s2).
Proof.
  intros Hc Ht Hcall Hc2. unfold call at 1; simpl. unfold memo_wrap.
  rewrite (bind_ok _ _ _ _ _ (cache_get_run _ _ _ _ Hc)).
  rewrite Ht. simpl.
  rewrite (bind_ok _ _ _ _ _ Hcall).
  by rewrite (bind_ok _ _ _ _ _ (cache_set_run _ _ _ _ _ Hc2)).
Qed.

(** A call that returned a truthy value leaves it in the cache. *)
Lemma memo_wrap_ok_cached f args kwargs s v s1 :
  call (memo_fn f) args kwargs s = Ok v s1 →
  truthy v = true →
  ∃ d, bag_at (fdict f) s1 !! "cache" = Some (ADict d) ∧
       d !! norm_key (memo_key args kwargs) = Some v.
Proof.
  unfold call; simpl. unfold memo_wrap. intros H Hv.
  destruct (bag_at (fdict f) s !! "cache") as [[a|d]|] eqn:Hc.
  - unfold cache_get, mbind, M_bind, getattr in H. by rewrite Hc in H.
  - rewrite (bind_ok _ _ _ _ _ (cache_get_run _ _ _ _ Hc)) in H.
    destruct (truthy (default VNone (d !! _))) eqn:Ht; simpl in H.
    + injection H as <- <-. exists d. split; [done|].
      destruct (d !! _) as [w|]; [done|]. discriminate.
    + unfold mbind at 1, M_bind at 1 in H.
      destruct (call f args kwargs s) as [r s2|e s2|]; try discriminate.
      unfold mbind at 1, M_bind at 1 in H.
      destruct (cache_set _ _ _ s2) as [u s3|e s3|] eqn:Hs; try discriminate.
      injection H as <- <-.
      destruct (cache_set_inv _ _ _ _ _ _ Hs) as (d2 & Hd2 & ->).
      eexists. split.
      * apply read_set_attr_eq.
      * apply lookup_insert_eq.
  - unfold cache_get, mbind, M_bind, getattr in H. by rewrite Hc in H.
Qed.

(** C9 fails on the code. [f] always returns [0] and counts its calls;
    [g = memo(f)].  The call [g(3, a=7)] stores [0] under the key
    [(3, 7)]: the positional value, then the value of the keyword
    argument, its name left out.  The call [g(3, b=7)] passes the same
    values under another name, has the same key and finds the entry;
    but the entry is falsy, so [f] is called again instead of the
    cached result being returned. *)
Theorem memo_same_values_falsy_recomputed :
  ∃ g s0 s1 s2,
    memo counted_zero empty_state = Ok g s0 ∧
    call g [VInt 3] [("a", VInt 7)] s0 = Ok (VInt 0) s1 ∧
    read_attr g "cache" s1
    = Some (ADict {[ [VInt 3; VInt 7] := VInt 0 ]}) ∧
    read_attr counted_zero "calls" s1 = Some (AVal (VInt 1)) ∧
    cached g (memo_key [VInt 3] [("b", VInt 7)]) s1 = Some (VInt 0) ∧
    call g [VInt 3] [("b", VInt 7)] s1 = Ok (VInt 0) s2 ∧
    read_attr counted_zero "calls" s2 = Some (AVal (VInt 2)).
Proof.
  eexists _, _, _, _. split; [reflexivity|].
  split; [vm_compute; reflexivity|].
  split; [vm_compute; reflexivity|].
  split; [vm_compute; reflexivity|].
  split; [vm_compute; reflexivity|].
  split; [vm_compute; reflexivity|].
  vm_compute; reflexivity.
Qed.

(** ** One dictionary for the whole stack, at run time *)



(** ** [trace] *)

(** C2, as stated, fails: after a call in which [f] raised, the depth
    counter is [1] instead of [0], and the next call is printed one
    level too deep. *)
Lemma trace_depth_after_error_counterexample :
  ∃ g s0 s1 s2,
    trace (VStr "--") raising_fn empty_state = Ok g s0 ∧
    read_attr g "depth" s0 = Some (AVal (VInt 0)) ∧
    call g [] [] s0 = Exc (UserError "boom") s1 ∧
    read_attr g "depth" s1 = Some (AVal (VInt 1)) ∧
    call g [] [] s1 = Exc (UserError "boom") s2 ∧
    out s2 = [" --> boom()"; "-- --> boom()"].
Proof.
  eexists _, _, _, _. split; [reflexivity|].
  split; [vm_compute; reflexivity|].
  split; [vm_compute; reflexivity|].
  split; [vm_compute; reflexivity|].
  split; [vm_compute; reflexivity|].
  vm_compute; reflexivity.
Qed.

Lemma indentation_run indent l d s :
  bag_at l s !! "depth" = Some (AVal (VInt d)) →
  indentation indent l s = Ok (str_repeat (str indent) d) s.
Proof.
  intros H. unfold indentation, mbind, M_bind, getattr. by rewrite H.
Qed.

Lemma depth_incr_run l d s :
  bag_at l s !! "depth" = Some (AVal (VInt d)) →
  depth_incr l s = Ok tt (set_attr l "depth" (AVal (VInt (d + 1))) s).
Proof.
  intros H. unfold depth_incr, mbind, M_bind, getattr. by rewrite H.
Qed.

Lemma depth_decr_run l d s :
  bag_at l s !! "depth" = Some (AVal (VInt d)) →
  depth_decr l s = Ok tt (set_attr l "depth" (AVal (VInt (d - 1))) s).
Proof.
  intros H. unfold depth_decr, mbind, M_bind, getattr. by rewrite H.
Qed.

Lemma trace_wrap2_enter indent f args kwargs d s :
  bag_at (fdict f) s !! "depth" = Some (AVal (VInt d)) →
  call (trace_fn indent f) args kwargs s
  = (result ← call f args kwargs;
     _ ← depth_decr (fdict f);
     post ← indentation indent (fdict f);
     _ ← print (post +:+ " <-- " +:+ fname f +:+ args_str args
                 +:+ " == " +:+ str result);
     mret result) (entered indent f args d s).
Proof.
  intros H. unfold call at 1; simpl. unfold trace_wrap2.
  rewrite (bind_ok _ _ _ _ _ (indentation_run indent _ _ _ H)).
  unfold mbind at 1, M_bind at 1. unfold print. cbv beta iota.
  rewrite (bind_ok _ _ _ _ _ (depth_incr_run (fdict f) d (put_line _ s) H)).
  reflexivity.
Qed.

(** C2, amended. Let the depth counter be [d] before a call of the
    traced wrapper, and let [f] not write the counter itself.  If [f]
    returns, the wrapper returns the same value with the counter back at
    [d].  If [f] raises, the wrapper raises the same error at once, in
    the very store [f] left: no exit line, and the counter at [d + 1]. *)
Theorem trace_depth_on_exit (indent : val) (f : fn) (args : list val)
    (kwargs : list (string * val)) (s : state) (d : Z) :
  keeps_attr f "depth" →
  read_attr f "depth" s = Some (AVal (VInt d)) →
  match call f args kwargs (entered indent f args d s) with
  | Ok r s2 =>
      ∃ s', call (trace_fn indent f) args kwargs s = Ok r s' ∧
            read_attr (trace_fn indent f) "depth" s' = Some (AVal (VInt d))
  | Exc e s2 =>
      call (trace_fn indent f) args kwargs s = Exc e s2 ∧
      read_attr (trace_fn indent f) "depth" s2 = Some (AVal (VInt (d + 1)))
  | OutOfFuel => call (trace_fn indent f) args kwargs s = OutOfFuel
  end.
Proof.
  intros Hkeep Hd. unfold read_attr in Hd.
  rewrite (trace_wrap2_enter indent f args kwargs d s Hd).
  pose proof (Hkeep args kwargs (entered indent f args d s)) as Hk.
  unfold read_attr in Hk.
  destruct (call f args kwargs (entered indent f args d s))
    as [r s2|e s2|] eqn:Hcall;
    [unfold entered in Hk; rewrite read_set_attr_eq in Hk ..|].
  - rewrite (bind_ok _ _ _ _ _ Hcall).
    rewrite (bind_ok _ _ _ _ _ (depth_decr_run _ _ _ Hk)).
    replace (d + 1 - 1) with d by lia.
    rewrite (bind_ok _ _ _ _ _
      (indentation_run indent _ d _ (read_set_attr_eq _ _ _ _))).
    eexists. split; [reflexivity|].
    exact (read_set_attr_eq (fdict f) "depth" _ s2).
  - rewrite (bind_exc _ _ _ _ _ Hcall). split; [done|exact Hk].
  - by rewrite (bind_fuel _ _ _ Hcall).
Qed.

Lemma raising_fn_keeps_attr name : keeps_attr raising_fn name.
Proof. intros args kwargs s. reflexivity. Qed.

Lemma trace_depth_on_exit_witness :
  read_attr raising_fn "depth" traced_state = Some (AVal (VInt 0)) ∧
  call (trace_fn (VStr "--") raising_fn) [] [] traced_state
  = Exc (UserError "boom") (entered (VStr "--") raising_fn [] 0 traced_state) ∧
  read_attr (trace_fn (VStr "--") raising_fn) "depth"
    (entered (VStr "--") raising_fn [] 0 traced_state)
  = Some (AVal (VInt 1)).
Proof.
  split; [reflexivity|].
  exact (trace_depth_on_exit (VStr "--") raising_fn [] [] traced_state 0
           (raising_fn_keeps_attr _) eq_refl).
Defined.

(** ** The module's [fib] *)

Lemma load_fib traced fuel :
  ∃ m s, load traced fuel empty_state = Ok m s ∧
    fib m = fib_global traced fuel 2%nat ∧
    fname (fib m) = (if traced then "trace_wrap2" else "memo_wrap").
Proof. destruct traced; by eexists _, _. Qed.

(** C8, as stated, fails: with [fib(0) = fib(1) = 1] the module's
    [fib(6)] is [13], not [8]. *)
Lemma fib_6_counterexample :
  result_val (run_fib true 6 6) = Some (VInt 13) ∧
  result_val (run_fib true 6 6) ≠ Some (VInt 8).
Proof.
  assert (H : result_val (run_fib true 6 6) = Some (VInt 13))
    by (vm_compute; reflexivity).
  split; [exact H|]. rewrite H. discriminate.
Qed.

(** C8, amended. Calling the module's traced, memoized, counted [fib]
    with [6] returns [13], and so does the same function without the
    trace layer; the recursion through the global [fib] is six calls
    deep, so any budget of at least six unfoldings gives the result. *)
Theorem fib_6_is_13 (traced : bool) (k : nat) :
  result_val (run_fib traced (6 + k) 6) = Some (VInt 13).
Proof. destruct traced; vm_compute; reflexivity. Qed.

(** ** The module's [foo] and [bar] *)

(** [foo(4, 3, 2)], [foo(4, 3)], [foo(4)] and then [foo.calls], read
    through the outermost wrapper although the innermost one counts. *)
Example foo_calls :
  result_val
    ((m ← load true 0;
      r1 ← call (foo m) [VInt 4; VInt 3; VInt 2] [];
      r2 ← call (foo m) [VInt 4; VInt 3] [];
      r3 ← call (foo m) [VInt 4] [];
      c ← getattr (fdict (foo m)) "calls";
      mret (r1, r2, r3, c)) empty_state)
  = Some (VInt 9, VInt 7, VInt 4, AVal (VInt 3)).
Proof. vm_compute; reflexivity. Qed.

(** [bar(4, 3)], [bar(4, 3, 2)], [bar(4, 3, 2, 1)] and then [bar.calls]. *)
Example bar_calls :
  result_val
    ((m ← load true 0;
      r1 ← call (bar m) [VInt 4; VInt 3] [];
      r2 ← call (bar m) [VInt 4; VInt 3; VInt 2] [];
      r3 ← call (bar m) [VInt 4; VInt 3; VInt 2; VInt 1] [];
      c ← getattr (fdict (bar m)) "calls";
      mret (r1, r2, r3, c)) empty_state)
  = Some (VInt 12, VInt 24, VInt 24, AVal (VInt 6)).
Proof. vm_compute; reflexivity. Qed.

(** After [foo(4, 3, 2)] the counter of the inner [countcalls] and the
    cache of the outer [memo] sit side by side in the one dictionary. *)
Example foo_counter_and_cache :
  match load true 0 empty_state with
  | Ok m s0 =>
      match call (foo m) [VInt 4; VInt 3; VInt 2] [] s0 with
      | Ok _ s =>
          Some (read_attr (foo m) "calls" s,
                cached (foo m) [VInt 3; VInt 2] s,
                cached (foo m) [VInt 4; VInt 5] s)
      | _ => None
      end
  | _ => None
  end
  = Some (Some (AVal (VInt 2)), Some (VInt 5), Some (VInt 9)).
Proof. vm_compute; reflexivity. Qed.

(** The first lines [fib(6)] prints: the tracer shows the name of the
    wrapper it decorates. *)
Example fib_trace_head :
  (s ← final_state (run_fib true 6 6); Some (take 3 (out s), length (out s)))
  = Some ([" --> memo_wrap(6)"; "#### --> memo_wrap(5)";
           "######## --> memo_wrap(4)"], 22%nat).
Proof. vm_compute; reflexivity. Qed.

(** With too small a budget the model gives no answer rather than a
    wrong one. *)
Example fib_needs_budget : run_fib true 5 6 = OutOfFuel.
Proof. vm_compute; reflexivity. Qed.

(** * Further properties *)

(** ** Stores *)

Lemma same_but_refl l name s : same_but l name s s.
Proof. by split_and!. Qed.

Lemma same_but_trans l name s1 s2 s3 :
  same_but l name s1 s2 → same_but l name s2 s3 → same_but l name s1 s3.
Proof.
  intros (Ho & Hn & Hh & Hb) (Ho' & Hn' & Hh' & Hb'). split_and!.
  - by rewrite Ho'.
  - by rewrite Hn'.
  - intros l' Hl. rewrite Hh' by done. by apply Hh.
  - intros name' Hne. rewrite Hb' by done. by apply Hb.
Qed.

Lemma same_but_set_attr l name a s : same_but l name s (set_attr l name a s).
Proof.
  split_and!; try done.
  - intros l' Hl. unfold set_attr; simpl. by rewrite lookup_insert_ne.
  - intros name' Hne. by apply read_set_attr_ne.
Qed.

(** ** [memo]: what is stored and when *)

Lemma memo_wrap_miss_exc f args kwargs s d e s2 :
  bag_at (fdict f) s !! "cache" = Some (ADict d) →
  truthy (default VNone (d !! norm_key (memo_key args kwargs))) = false →
  call f args kwargs s = Exc e s2 →
  call (memo_fn f) args kwargs s = Exc e s2.
Proof.
  intros Hc Ht Hcall. unfold call at 1; simpl. unfold memo_wrap.
  rewrite (bind_ok _ _ _ _ _ (cache_get_run _ _ _ _ Hc)).
  rewrite Ht. simpl.
  by rewrite (bind_exc _ _ _ _ _ Hcall).
Qed.

(** What a call of the memo wrapper that returned went through. *)
Lemma memo_wrap_ok_inv f args kwargs s v s1 :
  call (memo_fn f) args kwargs s = Ok v s1 →
  ∃ d, bag_at (fdict f) s !! "cache" = Some (ADict d) ∧
    ((d !! norm_key (memo_key args kwargs) = Some v ∧ truthy v = true ∧ s1 = s) ∨
     (truthy (default VNone (d !! norm_key (memo_key args kwargs))) = false ∧
      ∃ s2 d2, call f args kwargs s = Ok v s2 ∧
        bag_at (fdict f) s2 !! "cache" = Some (ADict d2) ∧
        s1 = set_attr (fdict f) "cache"
               (ADict (<[norm_key (memo_key args kwargs) := v]> d2)) s2)).
Proof.
  unfold call at 1; simpl. unfold memo_wrap. intros H.
  destruct (bag_at (fdict f) s !! "cache") as [[a|d]|] eqn:Hc.
  - unfold cache_get, mbind, M_bind, getattr in H. by rewrite Hc in H.
  - exists d. split; [done|].
    rewrite (bind_ok _ _ _ _ _ (cache_get_run _ _ _ _ Hc)) in H.
    destruct (truthy (default VNone (d !! _))) eqn:Ht; simpl in H.
    + left. injection H as <- <-.
      destruct (d !! _) as [w|]; [done|discriminate].
    + right. split; [done|].
      unfold mbind at 1, M_bind at 1 in H.
      destruct (call f args kwargs s) as [r s2|e s2|]; try discriminate.
      unfold mbind at 1, M_bind at 1 in H.
      destruct (cache_set _ _ _ s2) as [u s3|e s3|] eqn:Hs; try discriminate.
      injection H as <- <-.
      destruct (cache_set_inv _ _ _ _ _ _ Hs) as (d2 & Hd2 & ->).
      by exists s2, d2.
  - unfold cache_get, mbind, M_bind, getattr in H. by rewrite Hc in H.
Qed.

(** X1. Whatever a call of the memo wrapper returns is in the cache
    afterwards, under the key of the call, be it truthy or not. *)
Theorem memo_returned_value_is_cached (f : fn) (args : list val)
    (kwargs : list (string * val)) (s s1 : state) (v : val) :
  call (memo_fn f) args kwargs s = Ok v s1 →
  cached (memo_fn f) (memo_key args kwargs) s1 = Some v.
Proof.
  intros H. destruct (memo_wrap_ok_inv _ _ _ _ _ _ H)
    as (d & Hc & [(Hd & _ & ->)|(_ & s2 & d2 & _ & _ & ->)]);
    unfold cached, read_attr; simpl fdict.
  - by rewrite Hc.
  - rewrite read_set_attr_eq. apply lookup_insert_eq.
Qed.

Lemma memo_returned_value_is_cached_witness :
  ∃ s0 s1,
    memo counted_zero empty_state = Ok (memo_fn counted_zero) s0 ∧
    call (memo_fn counted_zero) [VInt 5] [] s0 = Ok (VInt 0) s1 ∧
    cached (memo_fn counted_zero) (memo_key [VInt 5] []) s1 = Some (VInt 0).
Proof.
  eexists _, _. split; [reflexivity|].
  match goal with
  | |- ?first_call ∧ _ =>
      assert (H : first_call) by (vm_compute; reflexivity)
  end.
  split; [exact H|].
  exact (memo_returned_value_is_cached counted_zero [VInt 5] [] _ _ _ H).
Defined.

(** X2. When the key of a call is not in the cache and the wrapped
    function raises, the memo wrapper raises the same error and leaves
    the store as the wrapped function left it: nothing is cached for the
    failed call. *)
Theorem memo_error_not_cached (f : fn) (args : list val)
    (kwargs : list (string * val)) (s s2 : state)
    (d : gmap (list val) val) (e : exn) :
  bag_at (fdict f) s !! "cache" = Some (ADict d) →
  d !! norm_key (memo_key args kwargs) = None →
  call f args kwargs s = Exc e s2 →
  call (memo_fn f) args kwargs s = Exc e s2.
Proof.
  intros Hc Hd Hcall. apply (memo_wrap_miss_exc f args kwargs s d); try done.
  by rewrite Hd.
Qed.

Lemma memo_error_not_cached_witness :
  call (memo_fn raising_fn) [VInt 1] []
    (set_attr 0%nat "cache" (ADict ∅) empty_state)
  = Exc (UserError "boom") (set_attr 0%nat "cache" (ADict ∅) empty_state).
Proof.
  exact (memo_error_not_cached raising_fn [VInt 1] []
           (set_attr 0%nat "cache" (ADict ∅) empty_state)
           (set_attr 0%nat "cache" (ADict ∅) empty_state)
           ∅ (UserError "boom") eq_refl eq_refl eq_refl).
Defined.

Lemma memo_wrap_agrees spec f args kwargs s s2 r :
  cache_agrees spec (fdict f) s →
  spec (norm_key (memo_key args kwargs)) = Some r →
  call f args kwargs s = Ok r s2 →
  cache_agrees spec (fdict f) s2 →
  ∃ s', call (memo_fn f) args kwargs s = Ok r s' ∧
        cache_agrees spec (fdict f) s' ∧
        (s' = s ∨ ∃ d2, s' = set_attr (fdict f) "cache" (ADict d2) s2).
Proof.
  intros (d & Hc & Hd) Hspec Hcall (d2 & Hc2 & Hd2).
  destruct (truthy (default VNone (d !! norm_key (memo_key args kwargs))))
    eqn:Ht.
  - destruct (d !! norm_key (memo_key args kwargs)) as [v|] eqn:Hv;
      [|discriminate].
    assert (v = r) as -> by (apply Hd in Hv; congruence).
    exists s. split; [by apply (memo_wrap_hit f args kwargs s d r)|].
    split; [by exists d|by left].
  - eexists. split; [by apply (memo_wrap_miss f args kwargs s d r s2 d2)|].
    split; [|right; by eexists].
    eexists. split; [apply read_set_attr_eq|].
    intros key v. rewrite lookup_insert. case_decide as Hk.
    + intros [= <-]. by rewrite <- Hk.
    + apply Hd2.
Qed.

(** X3. Let every entry of the cache be what [spec] gives for its key,
    and let the wrapped function return the value [spec] gives for the
    arguments while keeping the cache that way.  Then the memo wrapper
    returns that value, from the cache or from the wrapped function, and
    the cache still agrees with [spec]. *)
Theorem memo_agrees_with_spec (spec : list val → option val) (f : fn)
    (args : list val) (kwargs : list (string * val))
    (s s2 : state) (r : val) :
  cache_agrees spec (fdict f) s →
  spec (norm_key (memo_key args kwargs)) = Some r →
  call f args kwargs s = Ok r s2 →
  cache_agrees spec (fdict f) s2 →
  ∃ s', call (memo_fn f) args kwargs s = Ok r s' ∧
        cache_agrees spec (fdict f) s' ∧
        (s' = s ∨ ∃ d2, s' = set_attr (fdict f) "cache" (ADict d2) s2).
Proof. apply memo_wrap_agrees. Qed.

Lemma cache_agrees_empty spec l s :
  bag_at l s !! "cache" = Some (ADict ∅) → cache_agrees spec l s.
Proof. intros H. exists ∅. split; [done|]. intros key v. by rewrite lookup_empty. Qed.

Lemma memo_agrees_with_spec_witness :
  ∃ s', call (memo_fn one_fn) [VInt 3] []
          (set_attr 0%nat "cache" (ADict ∅) empty_state) = Ok (VInt 1) s' ∧
        cache_agrees (λ _, Some (VInt 1)) 0%nat s'.
Proof.
  destruct (memo_agrees_with_spec (λ _, Some (VInt 1)) one_fn [VInt 3] []
              (set_attr 0%nat "cache" (ADict ∅) empty_state)
              (set_attr 0%nat "cache" (ADict ∅) empty_state)
              (VInt 1)
              (cache_agrees_empty _ 0%nat
                 (set_attr 0%nat "cache" (ADict ∅) empty_state) eq_refl)
              eq_refl eq_refl
              (cache_agrees_empty _ 0%nat
                 (set_attr 0%nat "cache" (ADict ∅) empty_state) eq_refl))
    as (s' & Hcall & Hagree & _).
  exists s'. by split.
Defined.

(** X4. The order of [memo] and [countcalls] decides what is counted.
    On a call whose key is cached with a truthy value, [memo] over
    [countcalls] returns the value and leaves the counter alone, while
    [countcalls] over [memo] returns the same value and counts the call. *)
Theorem memo_countcalls_order (h : fn) (args : list val)
    (kwargs : list (string * val)) (s : state)
    (d : gmap (list val) val) (v : val) (c : Z) :
  bag_at (fdict h) s !! "cache" = Some (ADict d) →
  d !! norm_key (memo_key args kwargs) = Some v →
  truthy v = true →
  counter_is (fdict h) c s →
  call (memo_fn (countcalls_fn h)) args kwargs s = Ok v s ∧
  call (countcalls_fn (memo_fn h)) args kwargs s
  = Ok v (set_attr (fdict h) "calls" (AVal (VInt (c + 1))) s).
Proof.
  intros Hc Hd Hv Hcnt. split.
  - by apply (memo_wrap_hit (countcalls_fn h) args kwargs s d v).
  - rewrite (countcalls_wrap_step (memo_fn h) c args kwargs s Hcnt).
    apply (memo_wrap_hit h args kwargs _ d v); try done.
    by rewrite read_set_attr_ne.
Qed.

Lemma memo_countcalls_order_witness :
  call (memo_fn (countcalls_fn one_fn)) [VInt 3] []
    (set_attr 0%nat "cache" (ADict {[ [VInt 3] := VInt 1 ]}) empty_state)
  = Ok (VInt 1)
      (set_attr 0%nat "cache" (ADict {[ [VInt 3] := VInt 1 ]}) empty_state) ∧
  call (countcalls_fn (memo_fn one_fn)) [VInt 3] []
    (set_attr 0%nat "cache" (ADict {[ [VInt 3] := VInt 1 ]}) empty_state)
  = Ok (VInt 1)
      (set_attr 0%nat "calls" (AVal (VInt (0 + 1)))
         (set_attr 0%nat "cache" (ADict {[ [VInt 3] := VInt 1 ]}) empty_state)).
Proof.
  apply (memo_countcalls_order one_fn [VInt 3] []
           (set_attr 0%nat "cache" (ADict {[ [VInt 3] := VInt 1 ]}) empty_state)
           {[ [VInt 3] := VInt 1 ]} (VInt 1) 0).
  - vm_compute; reflexivity.
  - vm_compute; reflexivity.
  - reflexivity.
  - right. split; [reflexivity|]. vm_compute; reflexivity.
Defined.

(** X14. The key of a call is the tuple of its positional values
    followed by the values of its keyword arguments in call order,
    booleans counting as the integers they equal and the keyword names
    left out.  A call that misses stores the result of the wrapped
    function under exactly that key.  From then on a call with the same
    tuple of values, under whatever keyword names and whatever function
    is wrapped, returns a truthy stored result without changing the
    store, while a call with another tuple of values that is not cached
    goes to the wrapped function. *)
Theorem memo_key_is_values_in_order (f : fn) (args : list val)
    (kwargs : list (string * val)) (s s2 : state)
    (d d2 : gmap (list val) val) (r : val) :
  bag_at (fdict f) s !! "cache" = Some (ADict d) →
  d !! norm_key (args ++ kwargs.*2) = None →
  call f args kwargs s = Ok r s2 →
  bag_at (fdict f) s2 !! "cache" = Some (ADict d2) →
  ∃ s3,
    s3 = set_attr (fdict f) "cache"
           (ADict (<[norm_key (args ++ kwargs.*2) := r]> d2)) s2 ∧
    call (memo_fn f) args kwargs s = Ok r s3 ∧
    (∀ f' args' kwargs', fdict f' = fdict f →
       norm_key (args' ++ kwargs'.*2) = norm_key (args ++ kwargs.*2) →
       truthy r = true →
       call (memo_fn f') args' kwargs' s3 = Ok r s3) ∧
    (∀ f' args' kwargs', fdict f' = fdict f →
       norm_key (args' ++ kwargs'.*2) ≠ norm_key (args ++ kwargs.*2) →
       d2 !! norm_key (args' ++ kwargs'.*2) = None →
       call (memo_fn f') args' kwargs' s3
       = (result ← call f' args' kwargs';
          _ ← cache_set (fdict f') (args' ++ kwargs'.*2) result;
          mret result) s3).
Proof.
  intros Hc Hd Hcall Hc2. eexists. split; [reflexivity|]. split_and!.
  - apply (memo_wrap_miss f args kwargs s d r s2 d2); try done.
    unfold memo_key. by rewrite Hd.
  - intros f' args' kwargs' Hf Hkey Ht.
    apply (memo_wrap_hit f' args' kwargs' _
             (<[norm_key (args ++ kwargs.*2) := r]> d2) r).
    + rewrite Hf. apply read_set_attr_eq.
    + unfold memo_key. rewrite Hkey. apply lookup_insert_eq.
    + done.
  - intros f' args' kwargs' Hf Hne Hnone.
    unfold call at 1; simpl. unfold memo_wrap.
    erewrite bind_ok; cycle 1.
    { apply cache_get_run. rewrite Hf. apply read_set_attr_eq. }
    unfold memo_key at 1. rewrite lookup_insert_ne by done.
    by rewrite Hnone.
Qed.

Lemma memo_key_is_values_in_order_witness :
  ∃ s3,
    call (memo_fn counted_one) [VInt 3] [("a", VInt 7)]
      (set_attr 0%nat "cache" (ADict ∅) empty_state) = Ok (VInt 1) s3 ∧
    cached (memo_fn counted_one) [VInt 3; VInt 7] s3 = Some (VInt 1) ∧
    call (memo_fn counted_one) [VInt 3] [("b", VInt 7)] s3 = Ok (VInt 1) s3 ∧
    call (memo_fn counted_one) [VInt 3; VInt 7] [] s3 = Ok (VInt 1) s3.
Proof.
  destruct (memo_key_is_values_in_order counted_one [VInt 3] [("a", VInt 7)]
              (set_attr 0%nat "cache" (ADict ∅) empty_state)
              (set_attr 0%nat "calls" (AVal (VInt 1))
                 (set_attr 0%nat "cache" (ADict ∅) empty_state))
              ∅ ∅ (VInt 1) eq_refl (lookup_empty _) eq_refl eq_refl)
    as (s3 & -> & Hrun & Hsame & _).
  eexists. split; [exact Hrun|]. split; [vm_compute; reflexivity|].
  split.
  - by apply (Hsame counted_one [VInt 3] [("b", VInt 7)]).
  - by apply (Hsame counted_one [VInt 3; VInt 7] []).
Defined.

(** ** [n_ary]: arguments it refuses, and how often it calls *)

(** X5. The n-ary wrapper called without argument raises [IndexError],
    and called with any keyword argument raises [TypeError], in both
    cases without calling [f] or touching the store.  When the call on
    the tail of the arguments raises, the whole call raises the same
    error in the same store: [f] is not applied to the head. *)
Theorem n_ary_argument_errors (f : fn) :
  (∀ s, call (n_ary_fn f) [] [] s = Exc IndexError s) ∧
  (∀ args k v kwargs s,
     call (n_ary_fn f) args ((k, v) :: kwargs) s = Exc TypeError s) ∧
  (∀ x y z rest e s s',
     call (n_ary_fn f) (y :: z :: rest) [] s = Exc e s' →
     call (n_ary_fn f) (x :: y :: z :: rest) [] s = Exc e s').
Proof.
  split_and!; try done.
  intros x y z rest e s s' H.
  change (n_ary_wrap f (y :: z :: rest) s = Exc e s') in H.
  change (n_ary_wrap f (x :: y :: z :: rest) s = Exc e s').
  rewrite n_ary_wrap_cons. by apply bind_exc.
Qed.

Lemma n_ary_wrap_ints_cons f (a b : Z) (xs : list Z) (x : Z) :
  n_ary_wrap f (VInt <$> (a :: b :: xs ++ [x])) =
  (r ← n_ary_wrap f (VInt <$> (b :: xs ++ [x])); call f [VInt a; r] []).
Proof.
  destruct (xs ++ [x]) as [|c t] eqn:E; [by destruct xs|].
  reflexivity.
Qed.

Lemma n_ary_countcalls_run f op :
  computes_on_ints f op →
  ∀ xs x c s,
    counter_is (fdict f) c s →
    ∃ s', n_ary_wrap (countcalls_fn f) (VInt <$> (xs ++ [x])) s
          = Ok (VInt (foldr op x xs)) s' ∧
          counter_is (fdict f) (c + Z.of_nat (length xs)) s' ∧
          same_but (fdict f) "calls" s s'.
Proof.
  intros Hf. induction xs as [|a xs IH]; intros x c s Hc.
  - exists s. split; [done|]. split; [by rewrite Z.add_0_r|apply same_but_refl].
  - destruct xs as [|b xs].
    + pose proof (countcalls_wrap_step f c [VInt a; VInt x] [] s Hc) as Hstep.
      rewrite (Hf a x) in Hstep.
      eexists. split; [exact Hstep|].
      split; [left; apply read_set_attr_eq|apply same_but_set_attr].
    + destruct (IH x c s Hc) as (s1 & Hrun & Hc1 & Hsame).
      pose proof (countcalls_wrap_step f _
                    [VInt a; VInt (foldr op x (b :: xs))] [] s1 Hc1) as Hstep.
      rewrite (Hf a _) in Hstep.
      eexists. split.
      * change ((a :: b :: xs) ++ [x]) with (a :: b :: xs ++ [x]).
        rewrite n_ary_wrap_ints_cons.
        rewrite (bind_ok _ _ _ _ _ Hrun). exact Hstep.
      * split.
        -- left. rewrite read_set_attr_eq. do 3 f_equal.
           simpl length. lia.
        -- eapply same_but_trans; [exact Hsame|apply same_but_set_attr].
Qed.

(** X6. Let [f] compute [op] on two integers without side effect. The
    n-ary wrapper of [countcalls(f)], called with [n >= 1] integers,
    returns the right fold of [op] over them and raises the counter by
    exactly [n - 1]; nothing else in the store changes. *)
Theorem n_ary_counts_applications (f : fn) (op : Z → Z → Z)
    (xs : list Z) (x c : Z) (s : state) :
  computes_on_ints f op →
  counter_is (fdict f) c s →
  ∃ s', call (n_ary_fn (countcalls_fn f)) (VInt <$> (xs ++ [x])) [] s
        = Ok (VInt (foldr op x xs)) s' ∧
        counter_is (fdict f) (c + Z.of_nat (length xs)) s' ∧
        same_but (fdict f) "calls" s s'.
Proof. intros Hf Hc. by apply n_ary_countcalls_run. Qed.

Lemma foo_def_computes l : computes_on_ints (foo_def l) Z.add.
Proof. intros a b s. reflexivity. Qed.

Lemma bar_def_computes l : computes_on_ints (bar_def l) Z.mul.
Proof. intros a b s. reflexivity. Qed.

Lemma n_ary_counts_applications_witness :
  ∃ s', call (n_ary_fn (countcalls_fn (bar_def 0%nat)))
          (VInt <$> ([4; 3; 2] ++ [1])) [] empty_state
        = Ok (VInt (foldr Z.mul 1 [4; 3; 2])) s' ∧
        counter_is 0%nat (0 + Z.of_nat (length [4; 3; 2])) s' ∧
        same_but 0%nat "calls" empty_state s'.
Proof.
  apply (n_ary_counts_applications (bar_def 0%nat) Z.mul [4; 3; 2] 1 0
           empty_state (bar_def_computes 0%nat)).
  right. split; reflexivity.
Defined.

(** ** [trace]: what is printed around a call that returns *)

Lemma trace_wrap2_return indent f args kwargs s d r s2 :
  bag_at (fdict f) s !! "depth" = Some (AVal (VInt d)) →
  call f args kwargs (entered indent f args d s) = Ok r s2 →
  bag_at (fdict f) s2 !! "depth" = Some (AVal (VInt (d + 1))) →
  call (trace_fn indent f) args kwargs s
  = Ok r (put_line (exit_line indent f args d r)
            (set_attr (fdict f) "depth" (AVal (VInt d)) s2)).
Proof.
  intros Hd Hcall Hd2.
  rewrite (trace_wrap2_enter indent f args kwargs d s Hd).
  rewrite (bind_ok _ _ _ _ _ Hcall).
  rewrite (bind_ok _ _ _ _ _ (depth_decr_run _ _ _ Hd2)).
  replace (d + 1 - 1) with d by lia.
  rewrite (bind_ok _ _ _ _ _
    (indentation_run indent _ d _ (read_set_attr_eq _ _ _ _))).
  reflexivity.
Qed.

(** X7. Let the depth counter be [d] and let the wrapped function,
    started right after the entry line with the counter at [d + 1],
    return [r] with the counter still at [d + 1].  Then the traced
    wrapper returns [r]; the entry line
    [indent*d --> name(args)] comes before everything the wrapped
    function printed and the exit line [indent*d <-- name(args) == r]
    right after it, and the counter is back at [d]. *)
Theorem trace_return_lines (indent : val) (f : fn) (args : list val)
    (kwargs : list (string * val)) (s s2 : state) (d : Z) (r : val) :
  read_attr f "depth" s = Some (AVal (VInt d)) →
  call f args kwargs (entered indent f args d s) = Ok r s2 →
  read_attr f "depth" s2 = Some (AVal (VInt (d + 1))) →
  ∃ s', call (trace_fn indent f) args kwargs s = Ok r s' ∧
        out (entered indent f args d s) = out s ++ [enter_line indent f args d] ∧
        out s' = out s2 ++ [exit_line indent f args d r] ∧
        read_attr (trace_fn indent f) "depth" s' = Some (AVal (VInt d)) ∧
        (∀ name, name ≠ "depth" →
           bag_at (fdict f) s' !! name = bag_at (fdict f) s2 !! name).
Proof.
  intros Hd Hcall Hd2. eexists.
  split; [by apply trace_wrap2_return|].
  split_and!; try done.
  - exact (read_set_attr_eq (fdict f) "depth" _ s2).
  - intros name Hne.
    exact (read_set_attr_ne (fdict f) "depth" name _ s2 (not_eq_sym Hne)).
Qed.

Lemma trace_return_lines_witness :
  ∃ s', call (trace_fn (VStr "--") one_fn) [VInt 7] [] traced_state
        = Ok (VInt 1) s' ∧
        out (entered (VStr "--") one_fn [VInt 7] 0 traced_state)
        = out traced_state ++ [" --> one(7)"] ∧
        out s' = out (entered (VStr "--") one_fn [VInt 7] 0 traced_state)
                 ++ [" <-- one(7) == 1"] ∧
        read_attr (trace_fn (VStr "--") one_fn) "depth" s'
        = Some (AVal (VInt 0)).
Proof.
  destruct (trace_return_lines (VStr "--") one_fn [VInt 7] [] traced_state
              (entered (VStr "--") one_fn [VInt 7] 0 traced_state) 0 (VInt 1)
              eq_refl eq_refl eq_refl)
    as (s' & Hcall & Hin & Hout & Hdepth & _).
  exists s'. by split_and!.
Defined.

(** ** Building a stack *)

Lemma apply_comb_store c f s :
  ∃ g s', apply_comb c f s = Ok g s' ∧ fdict g = fdict f ∧
    out s' = out s ∧ next s' = next s ∧
    (∀ l, l ≠ fdict f → heap s' !! l = heap s !! l) ∧
    (∀ name, name ≠ "cache" → name ≠ "depth" →
       bag_at (fdict f) s' !! name = bag_at (fdict f) s !! name) ∧
    bag_at (fdict f) s' !! "cache"
      = (if is_memo c then Some (ADict ∅)
         else bag_at (fdict f) s !! "cache") ∧
    bag_at (fdict f) s' !! "depth"
      = (if is_trace c then Some (AVal (VInt 0))
         else bag_at (fdict f) s !! "depth").
Proof.
  destruct c; eexists _, _; (split; [reflexivity|]); split_and!; try done.
  - intros l Hl. simpl. by rewrite lookup_insert_ne.
  - intros name H1 H2. by apply read_set_attr_ne.
  - simpl. apply read_set_attr_eq.
  - by apply read_set_attr_ne.
  - intros l Hl. simpl. by rewrite lookup_insert_ne.
  - intros name H1 H2. by apply read_set_attr_ne.
  - by apply read_set_attr_ne.
  - apply read_set_attr_eq.
Qed.

(** X8. Building a stack of decorators on [f] prints nothing, creates
    no dictionary and touches no dictionary but the one of [f]; there it
    writes only [cache] and [depth].  With [memo] in the stack the cache
    starts empty, whatever [f] carried before, and with [trace] in the
    stack the depth starts at [0]; without them these attributes are
    left as they were. *)
Theorem chain_construction_effects (cs : list comb) (f : fn) (s : state) :
  ∃ g s', apply_chain cs f s = Ok g s' ∧
    out s' = out s ∧ next s' = next s ∧
    (∀ l, l ≠ fdict f → heap s' !! l = heap s !! l) ∧
    (∀ name, name ≠ "cache" → name ≠ "depth" →
       bag_at (fdict f) s' !! name = bag_at (fdict f) s !! name) ∧
    bag_at (fdict f) s' !! "cache"
      = (if existsb is_memo cs then Some (ADict ∅)
         else bag_at (fdict f) s !! "cache") ∧
    bag_at (fdict f) s' !! "depth"
      = (if existsb is_trace cs then Some (AVal (VInt 0))
         else bag_at (fdict f) s !! "depth").
Proof.
  revert f s. induction cs as [|c cs IH]; intros f s.
  - exists f, s. by split_and!.
  - destruct (apply_comb_store c f s)
      as (g & s1 & Hg & Hfd & Ho & Hn & Hh & Hb & Hcache & Hdepth).
    destruct (IH g s1) as (top & s2 & Htop & Ho2 & Hn2 & Hh2 & Hb2 & Hc2 & Hd2).
    rewrite Hfd in Hh2, Hb2, Hc2, Hd2.
    exists top, s2. split_and!.
    + simpl. by rewrite (bind_ok _ _ _ _ _ Hg).
    + by rewrite Ho2.
    + by rewrite Hn2.
    + intros l Hl. rewrite Hh2 by done. by apply Hh.
    + intros name H1 H2. rewrite Hb2 by done. by apply Hb.
    + rewrite Hc2, Hcache. simpl.
      by destruct (existsb is_memo cs), (is_memo c).
    + rewrite Hd2, Hdepth. simpl.
      by destruct (existsb is_trace cs), (is_trace c).
Qed.

(** ** [decorator] and [disable] keep a dictionary of their own *)

(** X9. Unlike the other decorators, [decorator] and [disable] give
    their wrapper a fresh dictionary, different from the one of any
    function defined before: an attribute written through [f] (a call
    counter, a cache) cannot be read through the wrapper. *)
Theorem decorator_has_own_dict (f : fn) (s : state) :
  (fdict f < next s)%nat →
  ∃ g d s',
    decorator f s = Ok g s' ∧ disable f s = Ok d s' ∧
    fdict g = next s ∧ fdict d = next s ∧ next s' = S (next s) ∧
    fdict g ≠ fdict f ∧ fdict d ≠ fdict f ∧
    ∀ name a s1,
      read_attr g name (set_attr (fdict f) name a s1) = read_attr g name s1 ∧
      read_attr d name (set_attr (fdict f) name a s1) = read_attr d name s1.
Proof.
  intros Hlt. eexists _, _, _.
  split; [reflexivity|]. split; [reflexivity|]. simpl.
  split_and!; try done; try lia.
  intros name a s1. unfold read_attr, bag_at, set_attr; simpl.
  rewrite lookup_insert_ne by lia. done.
Qed.

Lemma decorator_has_own_dict_witness :
  ∃ f s g d s',
    def_fn "f" None (λ _ _, mret VNone) empty_state = Ok f s ∧
    decorator (countcalls_fn f) s = Ok g s' ∧
    disable (countcalls_fn f) s = Ok d s' ∧
    fdict g ≠ fdict f ∧ fdict d ≠ fdict f.
Proof.
  eexists _, _. 
  destruct (decorator_has_own_dict
              (countcalls_fn (mkFn "f" None 0%nat (λ _ _, mret VNone)))
              (mkState ∅ 1%nat []) (Nat.lt_0_succ 0))
    as (g & d & s' & Hg & Hd & _ & _ & _ & Hng & Hnd & _).
  exists g, d, s'. split; [reflexivity|]. by split_and!.
Defined.

(** ** The invariant of a decorated function *)

Lemma steps_refl l s : steps l s s.
Proof. by split_and!. Qed.

Lemma steps_trans l s1 s2 s3 : steps l s1 s2 → steps l s2 s3 → steps l s1 s3.
Proof.
  intros (Hn & Hh & Hd) (Hn' & Hh' & Hd'). split_and!.
  - by rewrite Hn'.
  - intros l' Hl. rewrite Hh' by done. by apply Hh.
  - by rewrite Hd'.
Qed.

Lemma steps_set_attr l name a s :
  name ≠ "depth" → steps l s (set_attr l name a s).
Proof.
  intros Hne. split_and!; try done.
  - intros l' Hl. unfold set_attr; simpl. by rewrite lookup_insert_ne.
  - by apply read_set_attr_ne.
Qed.

Lemma counter_is_set_attr l c name a s :
  name ≠ "calls" → counter_is l c s → counter_is l c (set_attr l name a s).
Proof.
  intros Hne H. unfold counter_is. by rewrite read_set_attr_ne.
Qed.

Lemma cache_agrees_set_attr spec l name a s :
  name ≠ "cache" → cache_agrees spec l s →
  cache_agrees spec l (set_attr l name a s).
Proof.
  intros Hne (d & Hc & Hd). exists d. split; [|done].
  by rewrite read_set_attr_ne.
Qed.

Lemma stack_inv_set_calls spec traced l c s :
  stack_inv spec traced l s →
  stack_inv spec traced l (set_attr l "calls" (AVal (VInt c)) s).
Proof.
  intros (Hc & _ & Hd). split_and!.
  - by apply cache_agrees_set_attr.
  - exists c. left. apply read_set_attr_eq.
  - intros Ht. destruct (Hd Ht) as [d Hd']. exists d.
    by rewrite read_set_attr_ne.
Qed.

Lemma stack_inv_set_depth spec traced l d s :
  stack_inv spec traced l s →
  stack_inv spec traced l (set_attr l "depth" (AVal (VInt d)) s).
Proof.
  intros (Hc & (c & Hcnt) & _). split_and!.
  - by apply cache_agrees_set_attr.
  - exists c. by apply counter_is_set_attr.
  - intros _. exists d. apply read_set_attr_eq.
Qed.

Lemma stack_inv_put_line spec traced l line s :
  stack_inv spec traced l s → stack_inv spec traced l (put_line line s).
Proof. done. Qed.

Lemma stack_inv_set_cache spec traced l s :
  ∀ d, cache_agrees spec l (set_attr l "cache" (ADict d) s) →
  stack_inv spec traced l s →
  stack_inv spec traced l (set_attr l "cache" (ADict d) s).
Proof.
  intros d Hc (_ & (c & Hcnt) & Hd). split_and!; [done| |].
  - exists c. by apply counter_is_set_attr.
  - intros Ht. destruct (Hd Ht) as [dp Hd']. exists dp.
    by rewrite read_set_attr_ne.
Qed.

Lemma stack_inv_untraced spec traced l s :
  stack_inv spec traced l s → stack_inv spec false l s.
Proof. intros (Hc & Hcnt & _). by split_and!. Qed.

(** The memo layer of a stack whose dictionary is in order. *)
Lemma memo_layer spec traced f args kwargs s s2 r :
  stack_inv spec traced (fdict f) s →
  spec (norm_key (memo_key args kwargs)) = Some r →
  call f args kwargs s = Ok r s2 →
  stack_inv spec traced (fdict f) s2 →
  steps (fdict f) s s2 →
  ∃ s', call (memo_fn f) args kwargs s = Ok r s' ∧
        stack_inv spec traced (fdict f) s' ∧
        steps (fdict f) s s'.
Proof.
  intros Hinv Hspec Hcall Hinv2 Hsteps.
  destruct (memo_wrap_agrees spec f args kwargs s s2 r)
    as (s' & Hrun & Hagree & [->| [d2 ->]]); try done.
  - by destruct Hinv.
  - by destruct Hinv2.
  - exists s. split_and!; try done; apply steps_refl.
  - eexists. split; [exact Hrun|]. split.
    + by apply stack_inv_set_cache.
    + eapply steps_trans; [exact Hsteps|]. by apply steps_set_attr.
Qed.

(** The counting layer: the counter goes up, the rest is the call of [f]. *)
Lemma countcalls_layer spec traced f args kwargs s :
  stack_inv spec traced (fdict f) s →
  ∃ c, call (countcalls_fn f) args kwargs s
       = call f args kwargs (set_attr (fdict f) "calls" (AVal (VInt c)) s) ∧
       stack_inv spec traced (fdict f)
         (set_attr (fdict f) "calls" (AVal (VInt c)) s) ∧
       steps (fdict f) s (set_attr (fdict f) "calls" (AVal (VInt c)) s).
Proof.
  intros Hinv. destruct Hinv as (Hc & (c & Hcnt) & Hd).
  exists (c + 1). split_and!.
  - by apply countcalls_wrap_step.
  - apply stack_inv_set_calls. split_and!; eauto.
  - by apply steps_set_attr.
Qed.

(** ** The module's [fib], for every argument *)

Lemma fib_nat_pos n : 0 < fib_nat n ∧ 0 < fib_nat (S n).
Proof.
  induction n as [|n [IH1 IH2]]; [by split|].
  split; [done|].
  change (fib_nat (S (S n))) with (fib_nat (S n) + fib_nat n). lia.
Qed.

Lemma fib_spec_pos n : 0 < fib_spec n.
Proof. apply fib_nat_pos. Qed.

Lemma fib_spec_base n : n ≤ 1 → fib_spec n = 1.
Proof.
  intros H. unfold fib_spec.
  destruct (Z.to_nat n) as [|[|k]] eqn:E; try done. lia.
Qed.

Lemma fib_spec_rec n :
  1 < n → fib_spec n = fib_spec (n - 1) + fib_spec (n - 2).
Proof.
  intros H. unfold fib_spec.
  replace (Z.to_nat n) with (S (S (Z.to_nat (n - 2)))) by lia.
  replace (Z.to_nat (n - 1)) with (S (Z.to_nat (n - 2))) by lia.
  reflexivity.
Qed.

Lemma fib_body_eq g n s :
  fib_body g [VInt n] [] s =
  (if n <=? 1 then mret (VInt 1)
   else x ← call g [VInt (n - 1)] [];
        y ← call g [VInt (n - 2)] [];
        of_option TypeError (py_add x y)) s.
Proof.
  unfold fib_body, mbind, M_bind. simpl. by destruct (n <=? 1).
Qed.

Lemma fib_state_set_calls traced l d c c' s :
  fib_state traced l d c s →
  fib_state traced l d c' (set_attr l "calls" (AVal (VInt c')) s).
Proof.
  intros (Hc & _ & Hd). split_and!.
  - by rewrite read_set_attr_ne.
  - left. apply read_set_attr_eq.
  - intros Ht. destruct (Hd Ht) as [dp Hdp]. exists dp.
    by rewrite read_set_attr_ne.
Qed.

Lemma fib_state_set_depth traced l d c dp s :
  fib_state traced l d c s →
  fib_state traced l d c (set_attr l "depth" (AVal (VInt dp)) s).
Proof.
  intros (Hc & Hcnt & _). split_and!.
  - by rewrite read_set_attr_ne.
  - by apply counter_is_set_attr.
  - intros _. exists dp. apply read_set_attr_eq.
Qed.

Lemma fib_state_set_cache traced l d d' c s :
  fib_state traced l d c s →
  fib_state traced l d' c (set_attr l "cache" (ADict d') s).
Proof.
  intros (_ & Hcnt & Hd). split_and!.
  - apply read_set_attr_eq.
  - by apply counter_is_set_attr.
  - intros Ht. destruct (Hd Ht) as [dp Hdp]. exists dp.
    by rewrite read_set_attr_ne.
Qed.

Lemma fib_cache_ok_truthy d n v :
  fib_cache_ok d → d !! [VInt n] = Some v →
  v = VInt (fib_spec n) ∧ truthy v = true.
Proof.
  intros Hok Hv. apply Hok in Hv. injection Hv as <-. split; [done|].
  simpl. pose proof (fib_spec_pos n). by destruct (Z.eqb_spec (fib_spec n) 0); [lia|].
Qed.

Lemma fib_global_outcome traced l : ∀ fuel n s d c,
  (0 < fuel)%nat → n ≤ Z.of_nat fuel →
  fib_cache_ok d → fib_state traced l d c s →
  fib_outcome traced l n n d c s
    (call (fib_global traced fuel l) [VInt n] [] s).
Proof.
  induction fuel as [|k IH]; intros n s d c Hpos Hn Hok Hst; [lia|].
  assert (Hbody : ∀ s0 c0, fib_state traced l d c0 s0 →
    fib_outcome traced l n (n - 1) d c0 s0
      (call (fib_def traced (S k) l) [VInt n] [] s0)).
  { intros s0 c0 H0.
    change (call (fib_def traced (S k) l) [VInt n] [] s0)
      with (fib_body (fib_global traced k l) [VInt n] [] s0).
    rewrite fib_body_eq. destruct (Z.leb_spec n 1) as [Hle|Hgt].
    - exists s0, d. rewrite fib_spec_base by done.
      replace (c0 + Z.of_nat (size d) - Z.of_nat (size d)) with c0 by lia.
      split_and!; try done; try apply steps_refl.
      intros key Hnone [v Hv]. congruence.
    - destruct (IH (n - 1) s0 d c0) as
        (s1 & d1 & Hr1 & Hok1 & Hsub1 & Hnew1 & Hst1 & Hs1);
        [lia|lia|done|done|].
      destruct (IH (n - 2) s1 d1 _ ltac:(lia) ltac:(lia) Hok1 Hst1) as
        (s2 & d2 & Hr2 & Hok2 & Hsub2 & Hnew2 & Hst2 & Hs2).
      exists s2, d2.
      rewrite (bind_ok _ _ _ _ _ Hr1), (bind_ok _ _ _ _ _ Hr2).
      rewrite (fib_spec_rec n) by done.
      split_and!; try done.
      + by transitivity d1.
      + intros key Hnone Hsome.
        destruct (d1 !! key) as [v1|] eqn:E1.
        * destruct (Hnew1 key Hnone) as (m & -> & Hm); [by eexists|].
          exists m. split; [done|lia].
        * destruct (Hnew2 key E1 Hsome) as (m & -> & Hm).
          exists m. split; [done|lia].
      + replace (c0 + Z.of_nat (size d2) - Z.of_nat (size d))
          with (c0 + Z.of_nat (size d1) - Z.of_nat (size d)
                + Z.of_nat (size d2) - Z.of_nat (size d1)) by lia.
        done.
      + by eapply steps_trans. }
  assert (Hcounted : ∀ s0 c0, fib_state traced l d c0 s0 →
    fib_outcome traced l n (n - 1) d (c0 + 1) s0
      (call (countcalls_fn (fib_def traced (S k) l)) [VInt n] [] s0)).
  { intros s0 c0 H0. pose proof H0 as (_ & Hcnt & _).
    rewrite (countcalls_wrap_step (fib_def traced (S k) l) c0 _ _ s0 Hcnt).
    destruct (Hbody _ (c0 + 1) (fib_state_set_calls _ _ _ _ (c0 + 1) _ H0))
      as (s' & d' & Hr & Hok' & Hsub & Hnew & Hst' & Hs').
    exists s', d'. split_and!; try done.
    eapply steps_trans; [|exact Hs']. by apply steps_set_attr. }
  assert (Hmemo : ∀ s0 c0, fib_state traced l d c0 s0 →
    fib_outcome traced l n n d c0 s0
      (call (memo_fn (countcalls_fn (fib_def traced (S k) l))) [VInt n] [] s0)).
  { intros s0 c0 H0. pose proof H0 as (Hcache & Hcnt & Hdp).
    destruct (d !! [VInt n]) as [v|] eqn:Hlook.
    - destruct (fib_cache_ok_truthy d n v Hok Hlook) as [-> Ht].
      exists s0, d.
      replace (c0 + Z.of_nat (size d) - Z.of_nat (size d)) with c0 by lia.
      split_and!; try done; try apply steps_refl.
      + by apply (memo_wrap_hit (countcalls_fn (fib_def traced (S k) l))
                    [VInt n] [] s0 d).
      + intros key Hnone [w Hw]. congruence.
    - destruct (Hcounted s0 c0 H0)
        as (s2 & d2 & Hr & Hok2 & Hsub & Hnew & Hst2 & Hs2).
      pose proof Hst2 as (Hcache2 & _ & _).
      assert (Hfresh : d2 !! [VInt n] = None).
      { destruct (d2 !! [VInt n]) as [w|] eqn:E; [|done].
        destruct (Hnew [VInt n] Hlook) as (m & [= <-] & Hm); [by eexists|].
        lia. }
      exists (set_attr l "cache"
                (ADict (<[ [VInt n] := VInt (fib_spec n) ]> d2)) s2),
             (<[ [VInt n] := VInt (fib_spec n) ]> d2).
      split_and!.
      + apply (memo_wrap_miss (countcalls_fn (fib_def traced (S k) l))
                 [VInt n] [] s0 d _ s2 d2); try done.
        change (norm_key (memo_key [VInt n] [])) with [VInt n].
        by rewrite Hlook.
      + intros key v. rewrite lookup_insert. case_decide as Hk.
        * intros [= <-]. by rewrite <- Hk.
        * apply Hok2.
      + transitivity d2; [done|]. by apply insert_subseteq.
      + intros key Hnone [w Hw]. rewrite lookup_insert in Hw.
        case_decide as Hk.
        * exists n. split; [done|lia].
        * destruct (Hnew key Hnone) as (m & -> & Hm); [by eexists|].
          exists m. split; [done|lia].
      + rewrite map_size_insert_None by done.
        apply (fib_state_set_cache traced l d2).
        replace (c0 + Z.of_nat (S (size d2)) - Z.of_nat (size d))
          with (c0 + 1 + Z.of_nat (size d2) - Z.of_nat (size d)) by lia.
        done.
      + eapply steps_trans; [exact Hs2|]. by apply steps_set_attr. }
  destruct traced; [|by apply Hmemo].
  destruct Hst as (Hcache & Hcnt & Hdp).
  destruct (Hdp eq_refl) as [dp Hdepth].
  set (inner := memo_fn (countcalls_fn (fib_def true (S k) l))).
  assert (Hent : fib_state true l d c
                   (entered (VStr "####") inner [VInt n] dp s)).
  { apply fib_state_set_depth. by split_and!. }
  destruct (Hmemo _ _ Hent)
    as (s2 & d2 & Hr & Hok2 & Hsub & Hnew & Hst2 & (Hn2 & Hh2 & Hd2)).
  assert (Hdepth2 : bag_at l s2 !! "depth" = Some (AVal (VInt (dp + 1)))).
  { rewrite Hd2. apply read_set_attr_eq. }
  exists (put_line (exit_line (VStr "####") inner [VInt n] dp
                      (VInt (fib_spec n)))
            (set_attr l "depth" (AVal (VInt dp)) s2)), d2.
  split.
  { exact (trace_wrap2_return (VStr "####") inner [VInt n] [] s dp _ s2
             Hdepth Hr Hdepth2). }
  split; [done|]. split; [done|]. split; [done|].
  split.
  { exact (fib_state_set_depth true l d2 _ dp s2 Hst2). }
  split_and!.
  - simpl. by rewrite Hn2.
  - intros l' Hl. simpl. rewrite lookup_insert_ne by done.
    rewrite Hh2 by done. simpl. by rewrite lookup_insert_ne.
  - rewrite Hdepth. exact (read_set_attr_eq l "depth" _ s2).
Qed.

Lemma fib_global_run traced l fuel n s :
  (0 < fuel)%nat → n ≤ Z.of_nat fuel →
  stack_inv fib_cache_spec traced l s →
  ∃ s', call (fib_global traced fuel l) [VInt n] [] s
        = Ok (VInt (fib_spec n)) s' ∧
        stack_inv fib_cache_spec traced l s' ∧
        steps l s s'.
Proof.
  intros Hpos Hn ((d & Hc & Hok) & (c & Hcnt) & Hdp).
  destruct (fib_global_outcome traced l fuel n s d c Hpos Hn Hok)
    as (s' & d' & Hr & Hok' & _ & _ & (Hc' & Hcnt' & Hdp') & Hsteps);
    [by split_and!|].
  exists s'. split; [done|]. split; [|done].
  split_and!; [by exists d'|by eexists|done].
Qed.

(** ** The module's [foo] and [bar], for all integer arguments *)

Lemma n_ary_layer g op (I : state → Prop) l :
  (∀ a b s, I s →
     ∃ s', call g [VInt a; VInt b] [] s = Ok (VInt (op a b)) s' ∧
           I s' ∧ steps l s s') →
  ∀ xs x s, I s →
    ∃ s', n_ary_wrap g (VInt <$> (xs ++ [x])) s
          = Ok (VInt (foldr op x xs)) s' ∧
          I s' ∧ steps l s s'.
Proof.
  intros Hg. induction xs as [|a xs IH]; intros x s Hs.
  - exists s. split; [done|]. split; [done|apply steps_refl].
  - destruct xs as [|b xs].
    + apply (Hg a x s Hs).
    + destruct (IH x s Hs) as (s1 & Hrun & Hi1 & Hs1).
      destruct (Hg a (foldr op x (b :: xs)) s1 Hi1) as (s2 & Hrun2 & Hi2 & Hs2).
      exists s2. split.
      * change ((a :: b :: xs) ++ [x]) with (a :: b :: xs ++ [x]).
        rewrite n_ary_wrap_ints_cons.
        by rewrite (bind_ok _ _ _ _ _ Hrun).
      * split; [done|by eapply steps_trans].
Qed.

Lemma foo_pair traced l a b s :
  stack_inv foo_cache_spec traced l s →
  ∃ s', call (memo_fn (countcalls_fn (foo_def l))) [VInt a; VInt b] [] s
        = Ok (VInt (a + b)) s' ∧
        stack_inv foo_cache_spec traced l s' ∧ steps l s s'.
Proof.
  intros Hinv.
  destruct (countcalls_layer foo_cache_spec traced (foo_def l)
              [VInt a; VInt b] [] s Hinv) as (c & Heq & Hi & Hs).
  rewrite (foo_def_computes l a b) in Heq.
  by apply (memo_layer foo_cache_spec traced (countcalls_fn (foo_def l))
              [VInt a; VInt b] [] s
              (set_attr l "calls" (AVal (VInt c)) s) (VInt (a + b))).
Qed.

Lemma foo_run traced l xs x s :
  stack_inv foo_cache_spec traced l s →
  ∃ s', call (n_ary_fn (memo_fn (countcalls_fn (foo_def l))))
          (VInt <$> (xs ++ [x])) [] s
        = Ok (VInt (foldr Z.add x xs)) s' ∧
        stack_inv foo_cache_spec traced l s' ∧ steps l s s'.
Proof.
  intros Hinv.
  apply (n_ary_layer (memo_fn (countcalls_fn (foo_def l))) Z.add
           (stack_inv foo_cache_spec traced l) l); [|done].
  intros a b s0 H0. by apply foo_pair.
Qed.

Lemma norm_key_ints zs : norm_key (VInt <$> zs) = VInt <$> zs.
Proof. unfold norm_key. rewrite <- list_fmap_compose. done. Qed.

Lemma bar_cache_spec_ints xs x :
  bar_cache_spec (norm_key (memo_key (VInt <$> (xs ++ [x])) []))
  = Some (VInt (foldr Z.mul x xs)).
Proof.
  unfold memo_key. simpl. rewrite app_nil_r, norm_key_ints.
  unfold bar_cache_spec.
  rewrite (mapM_fmap_Some int_of VInt) by done. simpl.
  destruct (xs ++ [x]) as [|z zs] eqn:E; [by destruct xs|].
  rewrite <- E, foldr_app. simpl. by rewrite Z.mul_1_r.
Qed.

Lemma bar_run traced l xs x s :
  stack_inv bar_cache_spec traced l s →
  ∃ s', call (memo_fn (n_ary_fn (countcalls_fn (bar_def l))))
          (VInt <$> (xs ++ [x])) [] s
        = Ok (VInt (foldr Z.mul x xs)) s' ∧
        stack_inv bar_cache_spec traced l s' ∧ steps l s s'.
Proof.
  intros Hinv. pose proof Hinv as (Hc & (c & Hcnt) & Hd).
  destruct (n_ary_countcalls_run (bar_def l) Z.mul (bar_def_computes l)
              xs x c s Hcnt) as (s2 & Hrun & Hcnt2 & (Ho & Hn & Hh & Hb)).
  apply (memo_layer bar_cache_spec traced (n_ary_fn (countcalls_fn (bar_def l)))
           (VInt <$> (xs ++ [x])) [] s s2).
  - done.
  - apply bar_cache_spec_ints.
  - exact Hrun.
  - split_and!.
    + destruct Hc as (d & Hcd & Hag). exists d. split; [|done].
      simpl in *. by rewrite Hb.
    + by eexists.
    + intros Ht. destruct (Hd Ht) as [dp Hdp]. exists dp.
      simpl in *. by rewrite Hb.
  - split_and!; [done|done|]. simpl in *. by rewrite Hb.
Qed.

Lemma stack_inv_steps_other spec traced l l' s s' :
  l' ≠ l → steps l s s' →
  stack_inv spec traced l' s → stack_inv spec traced l' s'.
Proof.
  intros Hne (_ & Hh & _) Hinv.
  assert (Hbag : bag_at l' s' = bag_at l' s).
  { unfold bag_at. by rewrite Hh. }
  unfold stack_inv, cache_agrees, counter_is in *. by rewrite Hbag.
Qed.

(** The module as loaded: its three functions are the stacks written in
    the source, and their dictionaries are in order. *)
Lemma load_run traced fuel :
  ∃ m s0, load traced fuel empty_state = Ok m s0 ∧
    foo m = n_ary_fn (memo_fn (countcalls_fn (foo_def 0%nat))) ∧
    bar m = memo_fn (n_ary_fn (countcalls_fn (bar_def 1%nat))) ∧
    fib m = fib_global traced fuel 2%nat ∧
    module_inv traced s0.
Proof.
  assert (Hfresh : ∀ spec tr l s,
    bag_at l s !! "cache" = Some (ADict ∅) →
    bag_at l s !! "calls" = None →
    (tr = true → bag_at l s !! "depth" = Some (AVal (VInt 0))) →
    stack_inv spec tr l s).
  { intros spec tr l s Hc Hn Hd. split_and!.
    - by apply cache_agrees_empty.
    - exists 0. by right.
    - intros Ht. exists 0. by apply Hd. }
  destruct traced; eexists _, _; (split; [reflexivity|]);
    (split; [reflexivity|]); (split; [reflexivity|]);
    (split; [reflexivity|]); split_and!; apply Hfresh;
    try (vm_compute; reflexivity); try discriminate.
Qed.

(** X10. In the module as loaded, and then after any calls of [foo],
    [bar] and [fib] with integer arguments, [foo] called with one or
    more integers returns their sum. *)
Theorem foo_returns_sum (traced : bool) (fuel : nat) :
  ∃ m s0, load traced fuel empty_state = Ok m s0 ∧
    module_inv traced s0 ∧
    ∀ xs x s, module_inv traced s →
      ∃ s', call (foo m) (VInt <$> (xs ++ [x])) [] s
            = Ok (VInt (foldr Z.add x xs)) s' ∧
            module_inv traced s'.
Proof.
  destruct (load_run traced fuel) as (m & s0 & Hload & Hfoo & _ & _ & Hinv).
  exists m, s0. split; [done|]. split; [done|].
  intros xs x s (Hf & Hb & Hfib). rewrite Hfoo.
  destruct (foo_run false 0%nat xs x s Hf) as (s' & Hrun & Hf' & Hsteps).
  exists s'. split; [done|]. split_and!; [done| |].
  - by apply (stack_inv_steps_other _ _ 0%nat 1%nat s s').
  - by apply (stack_inv_steps_other _ _ 0%nat 2%nat s s').
Qed.

(** X11. In the module as loaded, and then after any calls of [foo],
    [bar] and [fib] with integer arguments, [bar] called with one or
    more integers returns their product. *)
Theorem bar_returns_product (traced : bool) (fuel : nat) :
  ∃ m s0, load traced fuel empty_state = Ok m s0 ∧
    module_inv traced s0 ∧
    ∀ xs x s, module_inv traced s →
      ∃ s', call (bar m) (VInt <$> (xs ++ [x])) [] s
            = Ok (VInt (foldr Z.mul x xs)) s' ∧
            module_inv traced s'.
Proof.
  destruct (load_run traced fuel) as (m & s0 & Hload & _ & Hbar & _ & Hinv).
  exists m, s0. split; [done|]. split; [done|].
  intros xs x s (Hf & Hb & Hfib). rewrite Hbar.
  destruct (bar_run false 1%nat xs x s Hb) as (s' & Hrun & Hb' & Hsteps).
  exists s'. split; [done|]. split_and!; [|done|].
  - by apply (stack_inv_steps_other _ _ 1%nat 0%nat s s').
  - by apply (stack_inv_steps_other _ _ 1%nat 2%nat s s').
Qed.

(** X12. In the module as loaded, and then after any calls of [foo],
    [bar] and [fib] with integer arguments, [fib(n)] returns [1] for
    [n <= 1] and [fib(n-1) + fib(n-2)] beyond, with or without the trace
    layer, as soon as the recursion budget is at least [1] and at least
    [n]. *)
Theorem fib_returns_fib_spec (traced : bool) (fuel : nat) :
  ∃ m s0, load traced fuel empty_state = Ok m s0 ∧
    module_inv traced s0 ∧
    (∀ n, n ≤ 1 → fib_spec n = 1) ∧
    (∀ n, 1 < n → fib_spec n = fib_spec (n - 1) + fib_spec (n - 2)) ∧
    ∀ n s, (0 < fuel)%nat → n ≤ Z.of_nat fuel → module_inv traced s →
      ∃ s', call (fib m) [VInt n] [] s = Ok (VInt (fib_spec n)) s' ∧
            module_inv traced s'.
Proof.
  destruct (load_run traced fuel) as (m & s0 & Hload & _ & _ & Hfib & Hinv).
  exists m, s0. split; [done|]. split; [done|].
  split; [apply fib_spec_base|]. split; [apply fib_spec_rec|].
  intros n s Hpos Hn (Hf & Hb & Hfi). rewrite Hfib.
  destruct (fib_global_run traced 2%nat fuel n s Hpos Hn Hfi)
    as (s' & Hrun & Hfi' & Hsteps).
  exists s'. split; [done|]. split_and!; [| |done].
  - by apply (stack_inv_steps_other _ _ 2%nat 0%nat s s').
  - by apply (stack_inv_steps_other _ _ 2%nat 1%nat s s').
Qed.

(** X13. In the module as loaded the counter of [fib] equals the number
    of entries of its cache; and whenever that is so, the cache holding
    values of [fib] only and the depth being an integer, a call [fib(n)]
    with an integer [n] within the recursion budget (at least [1] and at
    least [n]) keeps it so: the body of [fib] runs once for each
    argument that gets cached.  Such a call loses or changes no entry of
    the cache and leaves the depth counter where it was. *)
Theorem fib_computed_once_per_argument (traced : bool) (fuel : nat) :
  ∃ m s0, load traced fuel empty_state = Ok m s0 ∧
    fib_counted traced 2%nat s0 ∧
    ∀ n s, (0 < fuel)%nat → n ≤ Z.of_nat fuel →
      fib_counted traced 2%nat s →
      ∃ s', call (fib m) [VInt n] [] s = Ok (VInt (fib_spec n)) s' ∧
            fib_counted traced 2%nat s' ∧
            (∀ key v, cached (fib m) key s = Some v →
                      cached (fib m) key s' = Some v) ∧
            read_attr (fib m) "depth" s' = read_attr (fib m) "depth" s.
Proof.
  destruct (load_run traced fuel)
    as (m & s0 & Hload & _ & _ & Hfib & (_ & _ & Hinv)).
  exists m, s0. split; [done|]. split.
  { exists ∅. split; [intros key v; by rewrite lookup_empty|].
    destruct Hinv as ((d & Hc & _) & _ & Hdp).
    assert (Hs0 : bag_at 2%nat s0 !! "cache" = Some (ADict ∅) ∧
                  bag_at 2%nat s0 !! "calls" = None).
    { revert Hload. destruct traced; intros [= <- <-];
        split; vm_compute; reflexivity. }
    destruct Hs0 as [Hc0 Hn0]. split_and!; [done| |done].
    right. by rewrite map_size_empty. }
  intros n s Hpos Hn (d & Hok & Hst).
  destruct (fib_global_outcome traced 2%nat fuel n s d _ Hpos Hn Hok Hst)
    as (s' & d' & Hr & Hok' & Hsub & _ & Hst' & (_ & _ & Hdepth)).
  assert (Hfd : fdict (fib m) = 2%nat) by (rewrite Hfib; by destruct traced).
  exists s'. rewrite Hfib at 1. split; [done|]. split_and!.
  - exists d'. split; [done|].
    by replace (Z.of_nat (size d) + Z.of_nat (size d') - Z.of_nat (size d))
      with (Z.of_nat (size d')) in Hst' by lia.
  - intros key v. unfold cached, read_attr. rewrite Hfd.
    destruct Hst as (Hc & _ & _). destruct Hst' as (Hc' & _ & _).
    rewrite Hc, Hc'. intros Hv. by eapply lookup_weaken.
  - unfold read_attr. by rewrite Hfd.
Qed.

(** The first values of [fib_spec], and a value beyond the ones the
    module asks for. *)
Example fib_spec_values :
  fib_spec <$> [-3; 0; 1; 2; 3; 4; 5; 6; 20]
  = [1; 1; 1; 2; 3; 5; 8; 13; 10946].
Proof. reflexivity. Qed.
